(** * Operational space controller (abr_control/controllers/osc.py)

    A shallow embedding of the class [OSC]: its constructor and its
    method [generate], with the numpy operations they use.

    Numbers.  The Python code computes on IEEE-754 doubles, but several
    properties of the controller are statements of exact arithmetic.  The
    embedding is therefore written once over a scalar interface, [Scalar],
    and instantiated twice: with the canonical rationals [Qc] (exact) and
    with the binary64 floats of the kernel (IEEE: signed zeros, infinities
    and NaN).  The float32 dtype of the array [scale] is not modelled.

    Effects.  [generate] mutates [self.integrated_error] and
    [self.training_signal], queries the robot model and may raise; it is
    embedded in a state-and-exception monad whose state holds the object
    and the list of queries made to the robot model so far.

    External code.  numpy.linalg ([det], [inv], [pinv]) and the conversions
    of abr_control.utils.transformations are interfaces ([Linalg],
    [Transformations]); the quaternion product and conjugate are modelled
    from the specification. *)

From Stdlib Require Import String List Bool Arith Lia ZArith QArith Qcanon.
From Stdlib Require Qcabs.
From Stdlib Require Import Ring Field.
From Stdlib Require Import Floats.
From Stdlib Require Import Permutation.
Import ListNotations.

Close Scope Q_scope.
Close Scope Qc_scope.

Set Implicit Arguments.

(** ** Scalars *)

Class Scalar (F : Type) := {
  f0 : F;
  f1 : F;
  fadd : F -> F -> F;
  fsub : F -> F -> F;
  fmul : F -> F -> F;
  fdiv : F -> F -> F;        (* numpy's true_divide: total, never raises *)
  fopp : F -> F;
  fabs : F -> F;
  fsqrt : F -> F;
  feqb : F -> F -> bool;     (* == *)
  fltb : F -> F -> bool;     (* <  *)
  fleb : F -> F -> bool;     (* <= *)
  f_1e_5 : F;                (* the literal 1e-5 *)
  f_005 : F                  (* the literal .005 *)
}.

Declare Scope scalar_scope.
Delimit Scope scalar_scope with F.
Notation "x + y" := (fadd x y) : scalar_scope.
Notation "x - y" := (fsub x y) : scalar_scope.
Notation "x * y" := (fmul x y) : scalar_scope.
Notation "x / y" := (fdiv x y) : scalar_scope.
Notation "- x" := (fopp x) : scalar_scope.

(** The exact instance.  Division by zero yields zero, as in [Qc]; the
    square root is exact on squares of rationals and rounds the numerator
    and the denominator down otherwise. *)
Definition Qc_ltb (x y : Qc) : bool :=
  match (x ?= y)%Qc with Lt => true | _ => false end.

Definition Qc_leb (x y : Qc) : bool :=
  match (x ?= y)%Qc with Gt => false | _ => true end.

Definition Qc_sqrt (x : Qc) : Qc :=
  Q2Qc (Z.sqrt (Qnum x) # Pos.sqrt (Qden x)).

#[export] Instance Qc_Scalar : Scalar Qc := {|
  f0 := 0%Qc;
  f1 := 1%Qc;
  fadd := Qcplus;
  fsub := Qcminus;
  fmul := Qcmult;
  fdiv := Qcdiv;
  fopp := Qcopp;
  fabs := Qcabs.Qcabs;
  fsqrt := Qc_sqrt;
  feqb := Qc_eq_bool;
  fltb := Qc_ltb;
  fleb := Qc_leb;
  f_1e_5 := Q2Qc (1 # 100000);
  f_005 := Q2Qc (5 # 1000)
|}.

(** The IEEE instance: every operation is the kernel's binary64 one. *)
#[export] Instance float_Scalar : Scalar float := {|
  f0 := 0%float;
  f1 := 1%float;
  fadd := PrimFloat.add;
  fsub := PrimFloat.sub;
  fmul := PrimFloat.mul;
  fdiv := PrimFloat.div;
  fopp := PrimFloat.opp;
  fabs := PrimFloat.abs;
  fsqrt := PrimFloat.sqrt;
  feqb := PrimFloat.eqb;
  fltb := PrimFloat.ltb;
  fleb := PrimFloat.leb;
  f_1e_5 := 0x1.4f8b588e368f1p-17%float;
  f_005 := 0x1.47ae147ae147bp-8%float
|}.

(** ** Python exceptions and the two monads *)

Inductive exn : Set :=
| AssertionError
| IndexError
| LinAlgError
| UnboundLocalError
| ValueError
| ZeroDivisionError.

Definition result (A : Type) : Type := (exn + A)%type.

Definition ok {A} (a : A) : result A := inr a.
Definition raise {A} (e : exn) : result A := inl e.

Definition rbind {A B} (c : result A) (k : A -> result B) : result B :=
  match c with
  | inl e => inl e
  | inr a => k a
  end.

Declare Scope result_scope.
Delimit Scope result_scope with result.
Notation "'let?' x := c 'in' k" := (rbind c (fun x => k))
  (at level 10, x pattern, c at level 100, k at level 200) : result_scope.

(** [Py W A]: a computation over a state [W] that returns an [A] or raises;
    the state reached is kept in both cases, as Python keeps the
    mutations made before an exception. *)
Definition Py (W A : Type) : Type := W -> result A * W.

Definition ret {W A} (a : A) : Py W A := fun w => (inr a, w).
Definition throw {W A} (e : exn) : Py W A := fun w => (inl e, w).
Definition bind {W A B} (c : Py W A) (k : A -> Py W B) : Py W B :=
  fun w => match c w with
           | (inl e, w') => (inl e, w')
           | (inr a, w') => k a w'
           end.
Definition lift {W A} (c : result A) : Py W A := fun w => (c, w).
Definition get {W} : Py W W := fun w => (inr w, w).
Definition assert {W} (b : bool) : Py W unit :=
  if b then ret tt else throw AssertionError.

Declare Scope monad_scope.
Delimit Scope monad_scope with monad.
Notation "x <- c ;; k" := (bind c (fun x => k))
  (at level 100, c at next level, right associativity) : monad_scope.
Notation "' pat <- c ;; k" := (bind c (fun x => match x with pat => k end))
  (at level 100, pat pattern, c at next level, right associativity) : monad_scope.
Notation "c ;; k" := (bind c (fun _ => k))
  (at level 100, right associativity) : monad_scope.

(** ** numpy arrays

    A one-dimensional array is a list; a two-dimensional array carries its
    number of columns, so that an array of shape (0, n) keeps its [n]. *)

Section Arrays.

Context {F : Type} `{Scalar F}.

Local Open Scope result_scope.

Definition vec : Type := list F.

Record matrix : Type := mk_matrix {
  ncols : nat;
  rows : list (list F)
}.

Definition nrows (A : matrix) : nat := length (rows A).

Definition wf_matrix (A : matrix) : Prop :=
  Forall (fun r => length r = ncols A) (rows A).

Definition has_shape (m n : nat) (A : matrix) : Prop :=
  nrows A = m /\ ncols A = n /\ wf_matrix A.

Definition entry (A : matrix) (i j : nat) : F :=
  nth j (nth i (rows A) []) f0.

Definition build (m n : nat) (f : nat -> nat -> F) : matrix :=
  {| ncols := n;
     rows := map (fun i => map (f i) (seq 0 n)) (seq 0 m) |}.

(** [np.sum] of the [n] terms [f 0], ..., [f (n-1)], added in order. *)
Definition sum_n (n : nat) (f : nat -> F) : F :=
  fold_left (fun acc k => (acc + f k)%F) (seq 0 n) f0.

(* np.zeros(n), np.ones(n), np.eye(n) *)
Definition np_zeros (n : nat) : vec := repeat f0 n.
Definition np_ones (n : nat) : vec := repeat f1 n.
Definition np_eye (n : nat) : matrix :=
  build n n (fun i j => if Nat.eqb i j then f1 else f0).

Definition zeros2 (m n : nat) : matrix := build m n (fun _ _ => f0).

(* A.T *)
Definition transpose (A : matrix) : matrix :=
  build (ncols A) (nrows A) (fun i j => entry A j i).

(* np.dot of two 2-D arrays *)
Definition np_dot (A B : matrix) : result matrix :=
  if Nat.eqb (ncols A) (nrows B)
  then ok (build (nrows A) (ncols B)
             (fun i j => sum_n (ncols A) (fun k => (entry A i k * entry B k j)%F)))
  else raise ValueError.

(* np.dot of a 2-D array and a 1-D array *)
Definition np_dot_mv (A : matrix) (v : vec) : result vec :=
  if Nat.eqb (ncols A) (length v)
  then ok (map (fun i => sum_n (ncols A) (fun k => (entry A i k * nth k v f0)%F))
             (seq 0 (nrows A)))
  else raise ValueError.

(** Broadcasting of one dimension against another. *)
Definition broadcast_dim (a b : nat) : result nat :=
  if Nat.eqb a b then ok a
  else if Nat.eqb a 1 then ok b
  else if Nat.eqb b 1 then ok a
  else raise ValueError.

Definition bidx (dim i : nat) : nat := if Nat.eqb dim 1 then 0 else i.

(* u op v on 1-D arrays, with broadcasting *)
Definition np_binop (op : F -> F -> F) (u v : vec) : result vec :=
  let? n := broadcast_dim (length u) (length v) in
  ok (map (fun i => op (nth (bidx (length u) i) u f0) (nth (bidx (length v) i) v f0))
        (seq 0 n)).

(* u op= v on 1-D arrays: the broadcast shape must be the shape of u *)
Definition np_iop (op : F -> F -> F) (u v : vec) : result vec :=
  let? n := broadcast_dim (length u) (length v) in
  if Nat.eqb n (length u)
  then ok (map (fun i => op (nth i u f0) (nth (bidx (length v) i) v f0)) (seq 0 n))
  else raise ValueError.

(* A - B on 2-D arrays, with broadcasting *)
Definition np_sub2 (A B : matrix) : result matrix :=
  let? m := broadcast_dim (nrows A) (nrows B) in
  let? n := broadcast_dim (ncols A) (ncols B) in
  ok (build m n (fun i j =>
        (entry A (bidx (nrows A) i) (bidx (ncols A) j)
         - entry B (bidx (nrows B) i) (bidx (ncols B) j))%F)).

(* k * v, for a Python or numpy scalar k *)
Definition scale_vec (k : F) (v : vec) : vec := map (fun x => (k * x)%F) v.

(* a[mask] for a boolean mask *)
Fixpoint select {A : Type} (mask : list bool) (a : list A) : list A :=
  match mask, a with
  | b :: mask', x :: a' => if b then x :: select mask' a' else select mask' a'
  | _, _ => []
  end.

Definition np_mask (mask : list bool) (a : vec) : result vec :=
  if Nat.eqb (length mask) (length a) then ok (select mask a)
  else raise IndexError.

Definition np_mask_rows (mask : list bool) (A : matrix) : result matrix :=
  if Nat.eqb (length mask) (nrows A)
  then ok {| ncols := ncols A; rows := select mask (rows A) |}
  else raise IndexError.

(* a[:3] = v, for an array a of length 6 *)
Definition set_first3 (a v : vec) : result vec :=
  let? n := broadcast_dim 3 (length v) in
  if Nat.eqb n 3
  then ok (map (fun i => nth (bidx (length v) i) v f0) (seq 0 3) ++ skipn 3 a)
  else raise ValueError.

(* a[3:] = v, for an array a of length 6 *)
Definition set_last3 (a v : vec) : result vec :=
  let? n := broadcast_dim 3 (length v) in
  if Nat.eqb n 3
  then ok (firstn 3 a ++ map (fun i => nth (bidx (length v) i) v f0) (seq 0 3))
  else raise ValueError.

(* np.sign *)
Definition np_sign (x : F) : F :=
  if fltb x f0 then (- f1)%F
  else if fltb f0 x then f1
  else if feqb x f0 then f0
  else x.

Definition isnan (x : F) : bool := negb (feqb x x).

(* np.clip(x, lo, hi) = minimum(maximum(x, lo), hi) *)
Definition np_clip (lo hi x : F) : F :=
  let m := if fleb lo x || isnan x then x else lo in
  if fleb m hi || isnan m then m else hi.

(* np.argmin: the first index of the least element, a NaN being least *)
Fixpoint argmin_from (best : F) (ibest i : nat) (l : vec) : nat :=
  match l with
  | [] => ibest
  | x :: l' =>
      if isnan best then ibest
      else if isnan x || fltb x best then argmin_from x i (S i) l'
      else argmin_from best ibest (S i) l'
  end.

Definition np_argmin (l : vec) : nat :=
  match l with
  | [] => 0
  | x :: l' => argmin_from x 0 1 l'
  end.

(* a[index] = x *)
Fixpoint set_nth (i : nat) (x : F) (l : vec) : vec :=
  match l, i with
  | [], _ => []
  | _ :: l', O => x :: l'
  | y :: l', S i' => y :: set_nth i' x l'
  end.

Definition np_setitem (i : nat) (x : F) (l : vec) : result vec :=
  if Nat.ltb i (length l) then ok (set_nth i x l) else raise IndexError.

(* Python's x / y on floats *)
Definition py_truediv (x y : F) : result F :=
  if feqb y f0 then raise ZeroDivisionError else ok (x / y)%F.

End Arrays.

Arguments matrix F : clear implicits.
Arguments vec F : clear implicits.

(** ** External interfaces *)

(** numpy.linalg.  [inv] and [pinv] raise LinAlgError on the inputs numpy
    rejects; [np_linalg_pinv A rcond] is [np.linalg.pinv(A, rcond=rcond)]. *)
Class Linalg (F : Type) := {
  np_linalg_det : matrix F -> result F;
  np_linalg_inv : matrix F -> result (matrix F);
  np_linalg_pinv : matrix F -> F -> result (matrix F)
}.

(** Quaternions of abr_control.utils.transformations: [w, x, y, z]. *)
Record quaternion (F : Type) : Type := mk_quaternion {
  qw : F; qx : F; qy : F; qz : F
}.

Class Transformations (F : Type) := {
  (* quaternion_from_euler(ai, aj, ak, axes='rxyz') *)
  quaternion_from_euler_rxyz : F -> F -> F -> quaternion F;
  quaternion_from_matrix : matrix F -> quaternion F;
  unit_vector : quaternion F -> quaternion F
}.

Section Quaternions.

Context {F : Type} `{Scalar F}.
Local Open Scope scalar_scope.

(** Modelled from the spec: abr_control.utils.transformations is not among
    the sources; [quaternion_multiply q1 q0] is the quaternion product
    [q1 (x) q0] of the relative rotation [q_target (x) conjugate(q_current)]. *)
Definition quaternion_multiply (q1 q0 : quaternion F) : quaternion F :=
  let (w1, x1, y1, z1) := q1 in
  let (w0, x0, y0, z0) := q0 in
  {| qw := - (x1 * x0) - y1 * y0 - z1 * z0 + w1 * w0;
     qx := x1 * w0 + y1 * z0 - z1 * y0 + w1 * x0;
     qy := - (x1 * z0) + y1 * w0 + z1 * x0 + w1 * y0;
     qz := x1 * y0 - y1 * x0 + z1 * w0 + w1 * z0 |}.

(** Modelled from the spec: the conjugate of a quaternion, which negates
    its vector part. *)
Definition quaternion_conjugate (q : quaternion F) : quaternion F :=
  {| qw := qw q; qx := - qx q; qy := - qy q; qz := - qz q |}.

Definition quaternion_opp (q : quaternion F) : quaternion F :=
  {| qw := - qw q; qx := - qx q; qy := - qy q; qz := - qz q |}.

(* q[1:] *)
Definition quaternion_vector (q : quaternion F) : vec F := [qx q; qy q; qz q].

End Quaternions.

(** The robot model ([robot_config]) and the secondary controllers. *)
Record robot_config (F : Type) : Type := {
  N_JOINTS : nat;
  robot_J : string -> vec F -> vec F -> matrix F;   (* J(name, q, x) *)
  robot_M : vec F -> matrix F;                      (* M(q) *)
  robot_Tx : string -> vec F -> vec F -> vec F;     (* Tx(name, q, x) *)
  robot_R : string -> vec F -> matrix F;            (* R(name, q) *)
  robot_C : vec F -> vec F -> matrix F;             (* C(q, dq) *)
  robot_g : vec F -> vec F                          (* g(q) *)
}.

Record Controller (F : Type) : Type := {
  controller_generate : vec F -> vec F -> vec F     (* generate(q, dq) *)
}.

(** A query of the robot model, with its arguments. *)
Inductive call (F : Type) : Type :=
| Call_J (name : string) (q x : vec F)
| Call_M (q : vec F)
| Call_Tx (name : string) (q x : vec F)
| Call_R (name : string) (q : vec F)
| Call_C (q dq : vec F)
| Call_g (q : vec F).

(** ** The class OSC *)

Record OSC (F : Type) : Type := mk_OSC {
  self_robot_config : robot_config F;
  kp : F;
  ko : F;
  kv : F;
  ki : F;
  vmax : option F;
  lamb : F;
  null_controllers : option (list (Controller F));
  use_g : bool;
  use_C : bool;
  integrated_error : vec F;
  IDENTITY_N_JOINTS : matrix F;
  ZEROS_THREE : vec F;
  ZEROS_SIX : vec F;
  ctrlr_dof : list bool;
  n_ctrlr_dof : nat;
  training_signal : option (vec F)    (* unset until generate() stores it *)
}.

Record world (F : Type) : Type := mk_world {
  self : OSC F;
  calls : list (call F)
}.

(** A Python value that is a float or a one-dimensional array. *)
Inductive pyval (F : Type) : Type :=
| PyFloat (x : F)
| NdArray (v : vec F).

Arguments Call_M {F} q.
Arguments Call_g {F} q.
Arguments Call_C {F} q dq.

Section Controller.

Context {F : Type} `{Scalar F} `{Linalg F} `{Transformations F}.

Local Open Scope scalar_scope.
Local Open Scope result_scope.
Local Open Scope monad_scope.

(* np.sum of a boolean array *)
Definition count_true (l : list bool) : nat := length (filter id l).

(** What the constructor prints. *)
Inductive printed : Set :=
| Fewer_DOF (n_joints n_ctrlr_dof : nat).

(** *** OSC.__init__

    [ko], [kv], [vmax], [ctrlr_dof] and [null_controllers] are [None] or a
    value.  A [kv] that is given is a Python number, and [kp / kv] is then
    Python's division, which raises on a zero divisor; a [kv] that is not
    given is the numpy scalar [np.sqrt(kp + ko)], and the quotient follows
    numpy, which does not raise. *)
Definition __init__ (robot : robot_config F) (kp : F) (ko kv : option F)
    (ki : F) (vmax : option F) (ctrlr_dof : option (list bool))
    (null_controllers : option (list (Controller F))) (use_g use_C : bool)
  : result (OSC F * list printed) :=
  let ko' := match ko with None => kp | Some k => k end in
  let kv' := match kv with None => fsqrt (kp + ko') | Some k => k end in
  let? lamb' := match kv with
                | None => ok (kp / kv')
                | Some _ => py_truediv kp kv'
                end in
  let ctrlr_dof' :=
    match ctrlr_dof with
    | None => [true; true; true; false; false; false]
    | Some d => d
    end in
  let n := count_true ctrlr_dof' in
  ok ({| self_robot_config := robot;
         kp := kp; ko := ko'; kv := kv'; ki := ki; vmax := vmax;
         lamb := lamb';
         null_controllers := null_controllers;
         use_g := use_g; use_C := use_C;
         integrated_error := [f0; f0; f0];
         IDENTITY_N_JOINTS := np_eye (N_JOINTS robot);
         ZEROS_THREE := np_zeros 3;
         ZEROS_SIX := np_zeros 6;
         ctrlr_dof := ctrlr_dof';
         n_ctrlr_dof := n;
         training_signal := None |},
      if Nat.ltb (N_JOINTS robot) n then [Fewer_DOF (N_JOINTS robot) n] else []).

(** *** State operations *)

Definition query (c : call F) : Py (world F) unit :=
  fun w => (inr tt, {| self := self w; calls := calls w ++ [c] |}).

Definition with_integrated_error (s : OSC F) (v : vec F) : OSC F :=
  {| self_robot_config := self_robot_config s;
     kp := kp s; ko := ko s; kv := kv s; ki := ki s; vmax := vmax s;
     lamb := lamb s; null_controllers := null_controllers s;
     use_g := use_g s; use_C := use_C s;
     integrated_error := v;
     IDENTITY_N_JOINTS := IDENTITY_N_JOINTS s;
     ZEROS_THREE := ZEROS_THREE s; ZEROS_SIX := ZEROS_SIX s;
     ctrlr_dof := ctrlr_dof s; n_ctrlr_dof := n_ctrlr_dof s;
     training_signal := training_signal s |}.

Definition with_training_signal (s : OSC F) (v : vec F) : OSC F :=
  {| self_robot_config := self_robot_config s;
     kp := kp s; ko := ko s; kv := kv s; ki := ki s; vmax := vmax s;
     lamb := lamb s; null_controllers := null_controllers s;
     use_g := use_g s; use_C := use_C s;
     integrated_error := integrated_error s;
     IDENTITY_N_JOINTS := IDENTITY_N_JOINTS s;
     ZEROS_THREE := ZEROS_THREE s; ZEROS_SIX := ZEROS_SIX s;
     ctrlr_dof := ctrlr_dof s; n_ctrlr_dof := n_ctrlr_dof s;
     training_signal := Some v |}.

Definition set_integrated_error (v : vec F) : Py (world F) unit :=
  fun w => (inr tt, {| self := with_integrated_error (self w) v; calls := calls w |}).

Definition set_training_signal (v : vec F) : Py (world F) unit :=
  fun w => (inr tt, {| self := with_training_signal (self w) v; calls := calls w |}).

(** *** OSC.generate, by parts *)

(** Lines 113-116: the Jacobian, restricted to the controlled rows. *)
Definition jacobian (s : OSC F) (ref_frame : string) (q xyz_offset : vec F)
  : Py (world F) (matrix F) :=
  query (Call_J ref_frame q xyz_offset) ;;
  lift (np_mask_rows (ctrlr_dof s)
          (robot_J (self_robot_config s) ref_frame q xyz_offset)).

(** Lines 124-131: the task space inertia matrix [Mx] from [Mx_inv]. *)
Definition task_space_inertia (Mx_inv : matrix F) : result (matrix F) :=
  let? d := np_linalg_det Mx_inv in
  if fleb f_1e_5 (fabs d)
  then np_linalg_inv Mx_inv
  else np_linalg_pinv Mx_inv f_005.

(** Lines 118-131. *)
Definition inertia (s : OSC F) (q : vec F) (J : matrix F)
  : Py (world F) (matrix F * matrix F * matrix F) :=
  query (Call_M q) ;;
  let M := robot_M (self_robot_config s) q in
  lift (let? M_inv := np_linalg_inv M in
        let? MJt := np_dot M_inv (transpose J) in
        let? Mx_inv := np_dot J MJt in
        let? Mx := task_space_inertia Mx_inv in
        ok (M, M_inv, Mx)).

(** Lines 136-140: returns [xyz], bound or not, and the new [u_task]. *)
Definition position_error (s : OSC F) (ref_frame : string) (q xyz_offset : vec F)
    (target u_task : vec F) : Py (world F) (option (vec F) * vec F) :=
  if Nat.ltb 0 (count_true (firstn 3 (ctrlr_dof s))) then
    query (Call_Tx ref_frame q xyz_offset) ;;
    let xyz := robot_Tx (self_robot_config s) ref_frame q xyz_offset in
    u_task' <- lift (let? d := np_binop fsub xyz (firstn 3 target) in
                     set_first3 u_task d) ;;
    ret (Some xyz, u_task')
  else ret (None, u_task).

(** Line 158: [-self.ko / self.kp * q_r[1:] * np.sign(q_r[0])]. *)
Definition orientation_error (ko kp : F) (q_d q_e : quaternion F) : result (vec F) :=
  let q_r := quaternion_multiply q_d (quaternion_conjugate q_e) in
  let? c := py_truediv (- ko) kp in
  ok (map (fun x => c * x * np_sign (qw q_r)) (quaternion_vector q_r)).

(** Lines 143-158. *)
Definition orientation (s : OSC F) (q target u_task : vec F)
  : Py (world F) (vec F) :=
  if Nat.ltb 0 (count_true (skipn 3 (ctrlr_dof s))) then
    let q_d := unit_vector
                 (quaternion_from_euler_rxyz
                    (nth 3 target f0) (nth 4 target f0) (nth 5 target f0)) in
    query (Call_R "EE" q) ;;
    let q_e := unit_vector
                 (quaternion_from_matrix (robot_R (self_robot_config s) "EE" q)) in
    lift (let? e := orientation_error (ko s) (kp s) q_d q_e in
          set_last3 u_task e)
  else ret u_task.

(** Lines 134-174: [xyz] and the task space error of the controlled
    dimensions. *)
Definition task_error (s : OSC F) (ref_frame : string) (q xyz_offset target : vec F)
  : Py (world F) (option (vec F) * vec F) :=
  '(xyz, u_task) <- position_error s ref_frame q xyz_offset target (np_zeros 6) ;;
  u_task <- orientation s q target u_task ;;
  u_task <- lift (np_mask (ctrlr_dof s) u_task) ;;
  ret (xyz, u_task).

(** Line 178: the divisors and the saturation ratios. *)
Definition sat_divisors (lamb : F) (u_task : vec F) : vec F :=
  map (fun u => lamb * fabs u) u_task.

Definition saturation (vmax lamb : F) (u_task : vec F) : vec F :=
  map (fun d => vmax / d) (sat_divisors lamb u_task).

(** Lines 179-187. *)
Definition velocity_scale (s : OSC F) (vmax : F) (sat u_task : vec F)
  : result (vec F) :=
  if existsb (fun x => fltb x f1) sat then
    let index := np_argmin sat in
    let unclipped := kp s * nth index u_task f0 in
    let clipped := kv s * vmax * np_sign (nth index u_task f0) in
    let scale := map (fun o => o * clipped / unclipped) (np_ones (n_ctrlr_dof s)) in
    np_setitem index f1 scale
  else ok (np_ones (n_ctrlr_dof s)).

(** Lines 177-194: the control law with velocity limiting. *)
Definition velocity_limited (s : OSC F) (vmax : F) (J : matrix F)
    (dq target_vel u_task : vec F) : result (vec F * pyval F) :=
  let sat := saturation vmax (lamb s) u_task in
  let? scale := velocity_scale s vmax sat u_task in
  let? dx := np_dot_mv J dq in
  let? tv := np_mask (ctrlr_dof s) target_vel in
  let? a := np_binop fsub dx tv in
  let? r := np_binop fdiv sat scale in
  let c := map (fun x => np_clip f0 f1 x * - lamb s) r in
  let? c := np_binop fmul c scale in
  let? c := np_binop fmul c u_task in
  let? a := np_binop fsub a c in
  ok (map (fun x => - kv s * x) a, PyFloat f0).

(* np.all(target_vel == 0) *)
Definition all_zero (v : vec F) : bool := forallb (fun x => feqb x f0) v.

(** Lines 195-206: the control law without velocity limiting. *)
Definition unlimited (s : OSC F) (J M : matrix F)
    (dq target_vel u_task : vec F) : result (vec F * pyval F) :=
  let u_task := map (fun x => x * - kp s) u_task in
  if all_zero target_vel then
    let? Mdq := np_dot_mv M dq in
    ok (u_task, NdArray (map (fun x => - kv s * x) Mdq))
  else
    let? dx := np_dot_mv J dq in
    let? tv := np_mask (ctrlr_dof s) target_vel in
    let? a := np_binop fsub dx tv in
    let? u_task := np_iop fsub u_task (map (fun x => kv s * x) a) in
    ok (u_task, PyFloat f0).

(** Lines 176-206. *)
Definition control_law (s : OSC F) (J M : matrix F)
    (dq target_vel u_task : vec F) : result (vec F * pyval F) :=
  match vmax s with
  | Some vmax => velocity_limited s vmax J dq target_vel u_task
  | None => unlimited s J M dq target_vel u_task
  end.

(** Lines 208-213: the integrated error term.  [xyz] is the local variable
    of that name, unbound when the position branch was not taken. *)
Definition integral_term (target : vec F) (xyz : option (vec F)) (u_task : vec F)
  : Py (world F) (vec F) :=
  w <- get ;;
  let s := self w in
  if negb (feqb (ki s) f0) then
    match xyz with
    | None => throw UnboundLocalError
    | Some xyz =>
        d <- lift (np_binop fsub (firstn 3 target) xyz) ;;
        e <- lift (np_iop fadd (integrated_error s) d) ;;
        set_integrated_error e ;;
        lift (np_iop fsub u_task (map (fun x => ki s * x) e))
    end
  else ret u_task.

(* u += a, where u is 0.0 or an array *)
Definition py_iadd (u : pyval F) (a : vec F) : result (vec F) :=
  match u with
  | PyFloat x => ok (map (fun y => x + y) a)
  | NdArray v => np_iop fadd v a
  end.

(** Lines 215-230: task space forces to joint torques, Coriolis and
    gravity compensation, and the training signal. *)
Definition joint_torque (s : OSC F) (q dq : vec F) (J Mx : matrix F)
    (u : pyval F) (u_task : vec F) : Py (world F) (vec F) :=
  u <- lift (let? a := np_dot_mv Mx u_task in
             let? b := np_dot_mv (transpose J) a in
             py_iadd u b) ;;
  u <- (if use_C s then
          query (Call_C q dq) ;;
          lift (let? c := np_dot_mv (robot_C (self_robot_config s) q dq) dq in
                np_iop fsub u c)
        else ret u) ;;
  set_training_signal u ;;
  if use_g s then
    query (Call_g q) ;;
    lift (np_iop fsub u (robot_g (self_robot_config s) q))
  else ret u.

(** Lines 243-244: the null space filter. *)
Definition null_filter (s : OSC F) (J M_inv Mx : matrix F) : result (matrix F) :=
  let? JtMx := np_dot (transpose J) Mx in
  let? Jbar := np_dot M_inv JtMx in
  let? JtJbart := np_dot (transpose J) (transpose Jbar) in
  np_sub2 (IDENTITY_N_JOINTS s) JtJbart.

(** Lines 241-246: the body of the loop over the null controllers. *)
Definition null_step (s : OSC F) (q dq : vec F) (J M_inv Mx : matrix F)
    (u : vec F) (null_controller : Controller F) : result (vec F) :=
  let u_null := controller_generate null_controller q dq in
  let? nf := null_filter s J M_inv Mx in
  let? a := np_dot_mv nf u_null in
  np_iop fadd u a.

Fixpoint null_loop (s : OSC F) (q dq : vec F) (J M_inv Mx : matrix F)
    (u : vec F) (l : list (Controller F)) : result (vec F) :=
  match l with
  | [] => ok u
  | null_controller :: l' =>
      let? u := null_step s q dq J M_inv Mx u null_controller in
      null_loop s q dq J M_inv Mx u l'
  end.

(** Lines 238-246. *)
Definition null_space (s : OSC F) (q dq : vec F) (J M_inv Mx : matrix F)
    (u : vec F) : result (vec F) :=
  match null_controllers s with
  | None => ok u
  | Some l => null_loop s q dq J M_inv Mx u l
  end.

(** Lines 103-206: everything before the integrated error term, for the
    object [s]. *)
Definition task_force_of (s : OSC F) (q dq target : vec F)
    (target_vel : option (vec F)) (ref_frame : string) (xyz_offset : option (vec F))
  : Py (world F)
       (matrix F * matrix F * matrix F * option (vec F) * vec F * pyval F) :=
  assert (Nat.eqb (length target) 6) ;;
  target_vel <- match target_vel with
                | None => ret (ZEROS_SIX s)
                | Some tv => assert (Nat.eqb (length tv) 6) ;; ret tv
                end ;;
  let xyz_offset := match xyz_offset with
                    | None => ZEROS_THREE s
                    | Some x => x
                    end in
  J <- jacobian s ref_frame q xyz_offset ;;
  '(M, M_inv, Mx) <- inertia s q J ;;
  '(xyz, u_task) <- task_error s ref_frame q xyz_offset target ;;
  '(u_task, u) <- lift (control_law s J M dq target_vel u_task) ;;
  ret (J, M_inv, Mx, xyz, u_task, u).

Definition task_force (q dq target : vec F) (target_vel : option (vec F))
    (ref_frame : string) (xyz_offset : option (vec F))
  : Py (world F)
       (matrix F * matrix F * matrix F * option (vec F) * vec F * pyval F) :=
  w <- get ;;
  task_force_of (self w) q dq target target_vel ref_frame xyz_offset.

(** *** OSC.generate *)
Definition generate (q dq target : vec F) (target_vel : option (vec F))
    (ref_frame : string) (xyz_offset : option (vec F))
  : Py (world F) (vec F) :=
  '(J, M_inv, Mx, xyz, u_task, u) <-
      task_force q dq target target_vel ref_frame xyz_offset ;;
  u_task <- integral_term target xyz u_task ;;
  w <- get ;;
  let s := self w in
  u <- joint_torque s q dq J Mx u u_task ;;
  lift (null_space s q dq J M_inv Mx u).

End Controller.

(** ** An exact implementation of the external interfaces

    Used to run the controller on rationals: the determinant by cofactor
    expansion and the inverse by the adjugate. *)

Section ExactLinalg.

Context {F : Type} `{Scalar F}.
Local Open Scope scalar_scope.

Fixpoint remove_nth {A : Type} (j : nat) (l : list A) : list A :=
  match l, j with
  | [], _ => []
  | _ :: l', O => l'
  | x :: l', S j' => x :: remove_nth j' l'
  end.

Definition alt_sign (j : nat) : F := if Nat.even j then f1 else - f1.

Fixpoint det_rec (n : nat) (rs : list (list F)) : F :=
  match n, rs with
  | S n', r :: rest =>
      sum_n (S n')
        (fun j => alt_sign j * nth j r f0 * det_rec n' (map (remove_nth j) rest))
  | _, _ => f1
  end.

Definition minor (A : matrix F) (i j : nat) : list (list F) :=
  map (remove_nth j) (remove_nth i (rows A)).

Definition exact_det (A : matrix F) : result F :=
  if Nat.eqb (nrows A) (ncols A)
  then ok (det_rec (nrows A) (rows A))
  else raise LinAlgError.

Definition exact_inv (A : matrix F) : result (matrix F) :=
  if Nat.eqb (nrows A) (ncols A) then
    let n := nrows A in
    let d := det_rec n (rows A) in
    if feqb d f0 then raise LinAlgError
    else ok (build n n
               (fun i j => alt_sign (i + j) * det_rec (n - 1) (minor A j i) / d))
  else raise LinAlgError.

Definition is_zero_matrix (A : matrix F) : bool :=
  forallb (forallb (fun x => feqb x f0)) (rows A).

(** The pseudo-inverse where it is rational without a singular value
    decomposition: of a zero matrix, and of a non-zero 1x1 matrix, whose
    only singular value is above the cutoff when [rcond < 1].  Elsewhere
    this implementation gives up. *)
Definition exact_pinv (A : matrix F) (rcond : F) : result (matrix F) :=
  if is_zero_matrix A then ok (zeros2 (ncols A) (nrows A))
  else if Nat.eqb (nrows A) 1 && Nat.eqb (ncols A) 1 then
    if fltb rcond f1 then ok (build 1 1 (fun _ _ => f1 / entry A 0 0))
    else ok (zeros2 1 1)
  else raise LinAlgError.

(* np.array of a list of rows *)
Definition of_rows (l : list (list F)) : matrix F :=
  {| ncols := length (hd [] l); rows := l |}.

End ExactLinalg.

#[export] Instance Qc_Linalg : Linalg Qc := {|
  np_linalg_det := exact_det;
  np_linalg_inv := exact_inv;
  np_linalg_pinv := exact_pinv
|}.

(** A rational stand-in for the conversions of the transformations
    module, used to run examples: conversion from Euler angles to first
    order in the angles, conversion from a rotation matrix by the trace
    formula, and normalisation with the rational square root. *)
Definition Qc_quaternion_from_euler (ai aj ak : Qc) : quaternion Qc :=
  {| qw := 1; qx := ai / Q2Qc 2; qy := aj / Q2Qc 2; qz := ak / Q2Qc 2 |}%Qc.

Definition Qc_quaternion_from_matrix (R : matrix Qc) : quaternion Qc :=
  let w := (Qc_sqrt (1 + entry R 0 0 + entry R 1 1 + entry R 2 2) / Q2Qc 2)%Qc in
  {| qw := w;
     qx := (entry R 2 1 - entry R 1 2) / (Q2Qc 4 * w);
     qy := (entry R 0 2 - entry R 2 0) / (Q2Qc 4 * w);
     qz := (entry R 1 0 - entry R 0 1) / (Q2Qc 4 * w) |}%Qc.

Definition Qc_unit_vector (q : quaternion Qc) : quaternion Qc :=
  let n := Qc_sqrt (qw q * qw q + qx q * qx q + qy q * qy q + qz q * qz q)%Qc in
  {| qw := qw q / n; qx := qx q / n; qy := qy q / n; qz := qz q / n |}%Qc.

#[export] Instance Qc_Transformations : Transformations Qc := {|
  quaternion_from_euler_rxyz := Qc_quaternion_from_euler;
  quaternion_from_matrix := Qc_quaternion_from_matrix;
  unit_vector := Qc_unit_vector
|}.

(** ** A robot to run the controller on

    Six prismatic and revolute axes that move the end effector
    independently: the Jacobian and the inertia matrix are the identity,
    the end effector sits at the first three joint positions plus the
    offset and keeps its orientation. *)
Definition gantry : robot_config Qc := {|
  N_JOINTS := 6;
  robot_J := fun _ _ _ => np_eye 6;
  robot_M := fun _ => np_eye 6;
  robot_Tx := fun _ q x =>
    map (fun i => (nth i q 0 + nth i x 0)%Qc) (seq 0 3);
  robot_R := fun _ _ => np_eye 3;
  robot_C := fun _ _ => zeros2 6 6;
  robot_g := fun _ => [0; 0; Q2Qc 2; 0; 0; 0]%Qc
|}.

(** ** Notions used in the statements *)

Section Notions.

Context {F : Type} `{Scalar F}.

Local Open Scope scalar_scope.
Local Open Scope result_scope.

(* The products A B and the differences A - B, without numpy's shape checks *)
Definition matmul (A B : matrix F) : matrix F :=
  build (nrows A) (ncols B)
    (fun i j => sum_n (ncols A) (fun k => entry A i k * entry B k j)).

Definition msub (A B : matrix F) : matrix F :=
  build (nrows A) (ncols A) (fun i j => entry A i j - entry B i j).

(** [Mx] is the inverse of the [c] x [c] matrix [Mx_inv]. *)
Definition exact_inverse (c : nat) (Mx Mx_inv : matrix F) : Prop :=
  np_dot Mx Mx_inv = inr (np_eye c) /\ np_dot Mx_inv Mx = inr (np_eye c).

(** One secondary controller's torque, filtered by [N] and added to the
    running torque. *)
Definition add_filtered (N : matrix F) (q dq : vec F)
    (acc : result (vec F)) (null_controller : Controller F) : result (vec F) :=
  let? u := acc in
  let? a := np_dot_mv N (controller_generate null_controller q dq) in
  np_iop fadd u a.

Fixpoint list_eqb {A : Type} (eqb : A -> A -> bool) (l1 l2 : list A) : bool :=
  match l1, l2 with
  | [], [] => true
  | x :: l1', y :: l2' => eqb x y && list_eqb eqb l1' l2'
  | _, _ => false
  end.

Definition matrix_eqb (A B : matrix F) : bool :=
  Nat.eqb (ncols A) (ncols B) && list_eqb (list_eqb feqb) (rows A) (rows B).

(** [keeps_self c]: [c] leaves the controller object as it is. *)
Definition keeps_self {A} (c : Py (world F) A) : Prop :=
  forall w r w', c w = (r, w') -> self w' = self w.

(** [logs P c]: [c] only appends queries that satisfy [P]. *)
Definition logs (P : call F -> Prop) {A} (c : Py (world F) A) : Prop :=
  forall w r w', c w = (r, w') ->
  exists l, calls w' = calls w ++ l /\ Forall P l.

(** The queries generate() may make when it is called with [ref_frame] and
    the offset [x]: the Jacobian and the position are asked at [ref_frame]
    and [x], the rotation matrix at the frame ['EE']. *)
Definition call_allowed (ref_frame : string) (x : vec F) (c : call F) : Prop :=
  match c with
  | Call_J name _ x' => name = ref_frame /\ x' = x
  | Call_Tx name _ x' => name = ref_frame /\ x' = x
  | Call_R name _ => name = "EE"%string
  | Call_M _ | Call_C _ _ | Call_g _ => True
  end.

End Notions.

(** The laws of the scalars that the algebraic properties need: a
    commutative ring whose equality test decides equality and whose order
    is compatible with negation.  The rationals satisfy them; the floats
    do not. *)
Class ExactScalar (F : Type) `{Scalar F} : Prop := {
  scalar_ring : ring_theory f0 f1 fadd fmul fsub fopp (@eq F);
  feqb_eq : forall x y : F, feqb x y = true <-> x = y;
  fltb_asym : forall x y : F, fltb x y = true -> fltb y x = false;
  fltb_opp_l : forall x : F, fltb (- x)%F f0 = fltb f0 x;
  fltb_opp_r : forall x : F, fltb f0 (- x)%F = fltb x f0
}.

Arguments ExactScalar F {_}.

(** ** Controllers to run

    Controllers on the gantry, with [kp = ko = 1], [kv = 2] and no
    gravity compensation, for a mask and an integral gain. *)
Definition gantry_controller (dof : list bool) (ki : Qc) : OSC Qc := {|
  self_robot_config := gantry;
  kp := 1%Qc; ko := 1%Qc; kv := Q2Qc 2; ki := ki; vmax := None;
  lamb := Q2Qc (1 # 2); null_controllers := None;
  use_g := false; use_C := false;
  integrated_error := [0; 0; 0]%Qc;
  IDENTITY_N_JOINTS := np_eye 6;
  ZEROS_THREE := np_zeros 3; ZEROS_SIX := np_zeros 6;
  ctrlr_dof := dof;
  n_ctrlr_dof := count_true dof; training_signal := None |}.

Definition position_only : OSC Qc :=
  gantry_controller [true; true; true; false; false; false] 0%Qc.

Definition orientation_only : OSC Qc :=
  gantry_controller [false; false; false; true; true; true] 1%Qc.

(* The Jacobian of the gantry, restricted to the position rows. *)
Definition gantry_position_J : matrix Qc :=
  {| ncols := 6; rows := firstn 3 (rows (np_eye 6)) |}.

(** A robot with two joints and inertia matrix [M], whose first joint
    moves the end effector along x, and its controller of the x dimension. *)
Definition two_joints (M : matrix Qc) : robot_config Qc := {|
  N_JOINTS := 2;
  robot_J := fun _ _ _ =>
    of_rows ([[1; 0]] ++ repeat [0; 0] 5)%Qc;
  robot_M := fun _ => M;
  robot_Tx := fun _ q x =>
    [nth 0 q 0 + nth 0 x 0; nth 1 x 0; nth 2 x 0]%Qc;
  robot_R := fun _ _ => np_eye 3;
  robot_C := fun _ _ => zeros2 2 2;
  robot_g := fun _ => [0; 0]%Qc
|}.

Definition x_only (M : matrix Qc) : OSC Qc := {|
  self_robot_config := two_joints M;
  kp := 1%Qc; ko := 1%Qc; kv := 1%Qc; ki := 0%Qc; vmax := None;
  lamb := 1%Qc; null_controllers := None;
  use_g := true; use_C := false;
  integrated_error := [0; 0; 0]%Qc;
  IDENTITY_N_JOINTS := np_eye 2;
  ZEROS_THREE := np_zeros 3; ZEROS_SIX := np_zeros 6;
  ctrlr_dof := [true; false; false; false; false; false];
  n_ctrlr_dof := 1; training_signal := None |}.

(* The result of a call and the integrated error it leaves, as fractions. *)
Definition outcome (r : result (vec Qc) * world Qc)
  : result (list Q) * list Q :=
  (match fst r with
   | inl e => inl e
   | inr v => inr (map this v)
   end,
   map this (integrated_error (self (snd r)))).

(** The controller of the three positions of the gantry with gravity
    compensation, a controller of all six dimensions whose proportional
    gain is zero, and a secondary controller that asks for a fixed
    torque. *)
Definition gravity_compensated : OSC Qc := {|
  self_robot_config := gantry;
  kp := 1%Qc; ko := 1%Qc; kv := Q2Qc 2; ki := 0%Qc; vmax := None;
  lamb := Q2Qc (1 # 2); null_controllers := None;
  use_g := true; use_C := false;
  integrated_error := [0; 0; 0]%Qc;
  IDENTITY_N_JOINTS := np_eye 6;
  ZEROS_THREE := np_zeros 3; ZEROS_SIX := np_zeros 6;
  ctrlr_dof := [true; true; true; false; false; false];
  n_ctrlr_dof := 3; training_signal := None |}.

Definition zero_kp : OSC Qc := {|
  self_robot_config := gantry;
  kp := 0%Qc; ko := 1%Qc; kv := 1%Qc; ki := 0%Qc; vmax := None;
  lamb := 0%Qc; null_controllers := None;
  use_g := true; use_C := false;
  integrated_error := [0; 0; 0]%Qc;
  IDENTITY_N_JOINTS := np_eye 6;
  ZEROS_THREE := np_zeros 3; ZEROS_SIX := np_zeros 6;
  ctrlr_dof := [true; true; true; true; true; true];
  n_ctrlr_dof := 6; training_signal := None |}.

Definition constant_controller (u : vec Qc) : Controller Qc :=
  {| controller_generate := fun _ _ => u |}.

(* A joint position of the gantry and a target 3 above it in y. *)
Definition gantry_q : vec Qc := [1; Q2Qc 2; Q2Qc 3; 0; 0; 0]%Qc.

Definition gantry_target : vec Qc := [1; Q2Qc 5; Q2Qc 3; 0; 0; 0]%Qc.

(** ** Notions for the state of the controller *)

Section StateNotions.

Context {F : Type} `{Scalar F}.

(** The attributes that the constructor fixes: the object without its
    integrated error and its training signal. *)
Definition config (s : OSC F) : OSC F :=
  {| self_robot_config := self_robot_config s;
     kp := kp s; ko := ko s; kv := kv s; ki := ki s; vmax := vmax s;
     lamb := lamb s; null_controllers := null_controllers s;
     use_g := use_g s; use_C := use_C s;
     integrated_error := [];
     IDENTITY_N_JOINTS := IDENTITY_N_JOINTS s;
     ZEROS_THREE := ZEROS_THREE s; ZEROS_SIX := ZEROS_SIX s;
     ctrlr_dof := ctrlr_dof s; n_ctrlr_dof := n_ctrlr_dof s;
     training_signal := None |}.

(** [preserves f c]: [c] leaves the observation [f] of the object as it
    is, whatever its outcome. *)
Definition preserves {X A : Type} (f : OSC F -> X) (c : Py (world F) A) : Prop :=
  forall w r w', c w = (r, w') -> f (self w') = f (self w).

(* every component of v is zero *)
Definition is_zero_vec (v : vec F) : Prop := Forall (fun x => x = f0) v.

(** The queries that a call of generate() with the joint state [q], [dq]
    may make on the object [s]: every one is at [q], the Coriolis matrix is
    asked only with [use_C] and gravity only with [use_g]. *)
Definition call_expected (s : OSC F) (q dq : vec F) (c : call F) : Prop :=
  match c with
  | Call_J _ q' _ | Call_Tx _ q' _ | Call_R _ q' | Call_M q' => q' = q
  | Call_C q' dq' => use_C s = true /\ q' = q /\ dq' = dq
  | Call_g q' => use_g s = true /\ q' = q
  end.

End StateNotions.

(** ** Notions for binary64 results

    Two binary64 values are the same number when they are the same value
    or are both zeros, of either sign; a NaN is the same as a NaN. *)
Definition sf_same (a b : spec_float) : Prop :=
  match a, b with
  | S754_zero _, S754_zero _ => True
  | _, _ => a = b
  end.

Definition same_number (x y : float) : Prop :=
  sf_same (Prim2SF x) (Prim2SF y).

(* y is the same number as -x *)
Definition negated (x y : float) : Prop :=
  sf_same (Prim2SF y) (SFopp (Prim2SF x)).

Definition negated_quaternion (p p' : quaternion float) : Prop :=
  negated (qw p) (qw p') /\ negated (qx p) (qx p') /\
  negated (qy p) (qy p') /\ negated (qz p) (qz p').

(** Two outcomes are the same error when they raise the same exception or
    return arrays of the same numbers. *)
Definition same_errors (r r' : result (vec float)) : Prop :=
  match r, r' with
  | inr e, inr e' => Forall2 same_number e e'
  | inl x, inl y => x = y
  | _, _ => False
  end.

(** ** Further robots to run

    The gantry with its end effector turned about the z axis by the angle
    of cosine 7/25 and sine 24/25, and its orientation controller. *)
Definition turned : robot_config Qc := {|
  N_JOINTS := 6;
  robot_J := fun _ _ _ => np_eye 6;
  robot_M := fun _ => np_eye 6;
  robot_Tx := fun _ q x =>
    map (fun i => (nth i q 0 + nth i x 0)%Qc) (seq 0 3);
  robot_R := fun _ _ =>
    of_rows [[Q2Qc (7 # 25); Q2Qc (- 24 # 25); 0%Qc];
             [Q2Qc (24 # 25); Q2Qc (7 # 25); 0%Qc];
             [0%Qc; 0%Qc; 1%Qc]];
  robot_C := fun _ _ => zeros2 6 6;
  robot_g := fun _ => [0; 0; Q2Qc 2; 0; 0; 0]%Qc
|}.

Definition turned_orientation : OSC Qc := {|
  self_robot_config := turned;
  kp := 1%Qc; ko := 1%Qc; kv := Q2Qc 2; ki := 0%Qc; vmax := None;
  lamb := Q2Qc (1 # 2); null_controllers := None;
  use_g := false; use_C := false;
  integrated_error := [0; 0; 0]%Qc;
  IDENTITY_N_JOINTS := np_eye 6;
  ZEROS_THREE := np_zeros 3; ZEROS_SIX := np_zeros 6;
  ctrlr_dof := [false; false; false; true; true; true];
  n_ctrlr_dof := 3; training_signal := None |}.

(** A binary64 robot with two joints, the identity as inertia matrix and
    an end effector that moves along x by 0.6 and 0.8 of the joint
    positions, with its controller of the x dimension; and the binary64
    quaternion (0.5, 0.5, 0.1, 0.7). *)
Definition binary64_J : matrix float :=
  of_rows [[0x1.3333333333333p-1; 0x1.999999999999ap-1]]%float.

Definition binary64_two_joints : robot_config float := {|
  N_JOINTS := 2;
  robot_J := fun _ _ _ =>
    of_rows (rows binary64_J ++ repeat [0; 0]%float 5);
  robot_M := fun _ => np_eye 2;
  robot_Tx := fun _ q x =>
    [entry binary64_J 0 0 * nth 0 q 0 + entry binary64_J 0 1 * nth 1 q 0
     + nth 0 x 0; nth 1 x 0; nth 2 x 0]%float;
  robot_R := fun _ _ => np_eye 3;
  robot_C := fun _ _ => zeros2 2 2;
  robot_g := fun _ => [0; 0]%float
|}.

Definition binary64_x_only : OSC float := {|
  self_robot_config := binary64_two_joints;
  kp := 1%float; ko := 1%float; kv := 1%float; ki := 0%float; vmax := None;
  lamb := 1%float; null_controllers := None;
  use_g := true; use_C := false;
  integrated_error := [0; 0; 0]%float;
  IDENTITY_N_JOINTS := np_eye 2;
  ZEROS_THREE := np_zeros 3; ZEROS_SIX := np_zeros 6;
  ctrlr_dof := [true; false; false; false; false; false];
  n_ctrlr_dof := 1; training_signal := None |}.

Definition binary64_quaternion : quaternion float :=
  {| qw := 0x1p-1; qx := 0x1p-1;
     qy := 0x1.999999999999ap-4; qz := 0x1.6666666666666p-1 |}%float.

(** * Properties *)

(** ** Reasoning in the monads *)

Lemma rbind_ok {A B} (c : result A) (k : A -> result B) (b : B) :
  rbind c k = inr b -> exists a, c = inr a /\ k a = inr b.
Proof.
  destruct c as [e | a]; simpl; intros E; [discriminate | eauto].
Qed.

Lemma bind_ok {W A B} (c : Py W A) (k : A -> Py W B) (w w' : W) (b : B) :
  bind c k w = (inr b, w') ->
  exists a w1, c w = (inr a, w1) /\ k a w1 = (inr b, w').
Proof.
  unfold bind. destruct (c w) as [[e | a] w1]; intros E; [discriminate | eauto].
Qed.

Lemma bind_eq {W A B} (c : Py W A) (k : A -> Py W B) (w w1 : W) (a : A) :
  c w = (inr a, w1) -> bind c k w = k a w1.
Proof. unfold bind. intros ->. reflexivity. Qed.

Lemma bind_raise {W A B} (c : Py W A) (k : A -> Py W B) (w w1 : W) (e : exn) :
  c w = (inl e, w1) -> bind c k w = (inl e, w1).
Proof. unfold bind. intros ->. reflexivity. Qed.

Lemma lift_ok {W A} (c : result A) (w w' : W) (a : A) :
  lift c w = (inr a, w') -> c = inr a /\ w' = w.
Proof. unfold lift. intros E. inversion E. auto. Qed.

Section ControllerFacts.

Context {F : Type} `{Scalar F} `{Linalg F} `{Transformations F}.

(** ** Input validation *)

(** C7.  A target that is not of length 6, or a target velocity that is
    given and is not of length 6, makes generate() fail at once: the failed
    assertion is the result, and the state is the one the call started in,
    so that no query was made to the robot model and the integrated error
    is untouched. *)
Theorem generate_rejects_bad_lengths
    (q dq target : vec F) (target_vel : option (vec F))
    (ref_frame : string) (xyz_offset : option (vec F)) (w : world F) :
  length target <> 6 \/ (exists tv, target_vel = Some tv /\ length tv <> 6) ->
  generate q dq target target_vel ref_frame xyz_offset w = (inl AssertionError, w).
Proof.
  intros [Ht | [tv [-> Htv]]].
  - apply Nat.eqb_neq in Ht.
    unfold generate, task_force, task_force_of, bind, get, assert.
    rewrite Ht. reflexivity.
  - apply Nat.eqb_neq in Htv.
    unfold generate, task_force, task_force_of, bind, get, assert, ret, throw.
    destruct (Nat.eqb (length target) 6); [rewrite Htv |]; reflexivity.
Qed.

(** ** The task space inertia matrix *)


End ControllerFacts.


Lemma generate_rejects_bad_lengths_witness :
  let w := {| self := position_only; calls := [] |} in
  generate (np_zeros 6) (np_zeros 6) [1; 0; 0]%Qc None "EE" None w
  = (inl AssertionError, w).
Proof.
  intros w. apply generate_rejects_bad_lengths. left. simpl. lia.
Defined.

(** ** What a computation does to the state *)

Section Effects.

Context {F : Type} `{Scalar F} `{Linalg F} `{Transformations F}.

Lemma keeps_self_bind {A B} (c : Py (world F) A) (k : A -> Py (world F) B) :
  keeps_self c -> (forall a, keeps_self (k a)) -> keeps_self (bind c k).
Proof.
  intros Hc Hk w r w'. unfold bind.
  destruct (c w) as [[e | a] w1] eqn:E; intros E'.
  - inversion E'; subst. eapply Hc; eauto.
  - apply Hk in E'. apply Hc in E. congruence.
Qed.

Lemma logs_bind P {A B} (c : Py (world F) A) (k : A -> Py (world F) B) :
  logs P c -> (forall a, logs P (k a)) -> logs P (bind c k).
Proof.
  intros Hc Hk w r w'. unfold bind.
  destruct (c w) as [[e | a] w1] eqn:E; intros E'.
  - inversion E'; subst. eapply Hc; eauto.
  - apply Hk in E'. apply Hc in E.
    destruct E as [l1 [E1 F1]], E' as [l2 [E2 F2]].
    exists (l1 ++ l2). split.
    + rewrite E2, E1, app_assoc. reflexivity.
    + apply Forall_app; auto.
Qed.

Lemma pure_keeps_self {A} (c : Py (world F) A) :
  (forall w, snd (c w) = w) -> keeps_self c.
Proof. intros Hc w r w' E. specialize (Hc w). rewrite E in Hc. simpl in Hc. congruence. Qed.

Lemma pure_logs P {A} (c : Py (world F) A) :
  (forall w, snd (c w) = w) -> logs P c.
Proof.
  intros Hc w r w' E. specialize (Hc w). rewrite E in Hc. simpl in Hc. subst w'.
  exists []. rewrite app_nil_r. auto.
Qed.

Lemma ret_pure {A} (a : A) (w : world F) : snd (ret a w) = w.
Proof. reflexivity. Qed.

Lemma throw_pure {A} (e : exn) (w : world F) : snd (throw (A := A) e w) = w.
Proof. reflexivity. Qed.

Lemma lift_pure {A} (c : result A) (w : world F) : snd (lift c w) = w.
Proof. reflexivity. Qed.

Lemma get_pure (w : world F) : snd (get w) = w.
Proof. reflexivity. Qed.

Lemma assert_pure (b : bool) (w : world F) : snd (assert b w) = w.
Proof. destruct b; reflexivity. Qed.

Lemma query_keeps_self (c : call F) : keeps_self (query c).
Proof. intros w r w' E. unfold query in E. inversion E. reflexivity. Qed.

Lemma query_logs (P : call F -> Prop) (c : call F) : P c -> logs P (query c).
Proof.
  intros Hc w r w' E. unfold query in E. inversion E. simpl.
  exists [c]. auto.
Qed.

Lemma set_integrated_error_logs P (v : vec F) : logs P (set_integrated_error v).
Proof.
  intros w r w' E. unfold set_integrated_error in E. inversion E. simpl.
  exists []. rewrite app_nil_r. auto.
Qed.

Lemma set_training_signal_logs P (v : vec F) : logs P (set_training_signal v).
Proof.
  intros w r w' E. unfold set_training_signal in E. inversion E. simpl.
  exists []. rewrite app_nil_r. auto.
Qed.

End Effects.

Create HintDb effects.

#[local] Hint Resolve ret_pure throw_pure lift_pure get_pure assert_pure : effects.
#[local] Hint Resolve query_keeps_self set_integrated_error_logs
  set_training_signal_logs : effects.

(** Decomposes a computation into its binds and closes the leaves. *)
Ltac effects :=
  repeat first
    [ apply keeps_self_bind; [| intros ]
    | apply logs_bind; [| intros ]
    | apply query_keeps_self
    | apply set_integrated_error_logs
    | apply set_training_signal_logs
    | apply query_logs; simpl; solve [auto]
    | apply pure_keeps_self; solve [auto with effects]
    | apply pure_logs; solve [auto with effects]
    | match goal with
      | |- context [match ?x with _ => _ end] => destruct x
      | |- context [if ?b then _ else _] => destruct b
      end ].

Section Traces.

Context {F : Type} `{Scalar F} `{Linalg F} `{Transformations F}.

Implicit Types (s : OSC F) (q dq x target u : vec F) (ref_frame : string)
  (J : matrix F) (w : world F).

Lemma jacobian_keeps_self s ref_frame q x : keeps_self (jacobian s ref_frame q x).
Proof. unfold jacobian. effects. Qed.

Lemma inertia_keeps_self s q J : keeps_self (inertia s q J).
Proof. unfold inertia. effects. Qed.

Lemma position_error_keeps_self s ref_frame q x target u :
  keeps_self (position_error s ref_frame q x target u).
Proof. unfold position_error. effects. Qed.

Lemma orientation_keeps_self s q target u : keeps_self (orientation s q target u).
Proof. unfold orientation. effects. Qed.

Lemma task_error_keeps_self s ref_frame q x target :
  keeps_self (task_error s ref_frame q x target).
Proof.
  unfold task_error. apply keeps_self_bind.
  - apply position_error_keeps_self.
  - intros [xyz u]. apply keeps_self_bind; [apply orientation_keeps_self |].
    intros. effects.
Qed.

Lemma task_force_of_keeps_self s q dq target target_vel ref_frame xyz_offset :
  keeps_self (task_force_of s q dq target target_vel ref_frame xyz_offset).
Proof.
  unfold task_force_of.
  apply keeps_self_bind; [effects |]. intros _.
  apply keeps_self_bind; [effects |]. intros tv.
  apply keeps_self_bind; [apply jacobian_keeps_self |]. intros J.
  apply keeps_self_bind; [apply inertia_keeps_self |]. intros [[M M_inv] Mx].
  apply keeps_self_bind; [apply task_error_keeps_self |]. intros [xyz u].
  effects.
Qed.

Lemma task_force_keeps_self q dq target target_vel ref_frame xyz_offset :
  keeps_self (task_force q dq target target_vel ref_frame xyz_offset).
Proof.
  unfold task_force. apply keeps_self_bind; [effects |].
  intros. apply task_force_of_keeps_self.
Qed.

Lemma jacobian_logs s ref_frame q x :
  logs (call_allowed ref_frame x) (jacobian s ref_frame q x).
Proof. unfold jacobian. effects. Qed.

Lemma inertia_logs P s q J : P (Call_M q) -> logs P (inertia s q J).
Proof.
  intros HP. unfold inertia. apply logs_bind.
  - apply query_logs, HP.
  - intros. effects.
Qed.

Lemma task_error_logs s ref_frame q x target :
  logs (call_allowed ref_frame x) (task_error s ref_frame q x target).
Proof.
  unfold task_error, position_error, orientation.
  apply logs_bind.
  - effects.
  - intros [xyz u]. effects.
Qed.

Lemma task_force_of_logs s q dq target target_vel ref_frame xyz_offset :
  logs (call_allowed ref_frame
          match xyz_offset with None => ZEROS_THREE s | Some x => x end)
       (task_force_of s q dq target target_vel ref_frame xyz_offset).
Proof.
  unfold task_force_of.
  apply logs_bind; [effects |]. intros _.
  apply logs_bind; [effects |]. intros tv.
  apply logs_bind; [apply jacobian_logs |]. intros J.
  apply logs_bind; [apply inertia_logs; exact I |]. intros [[M M_inv] Mx].
  apply logs_bind; [apply task_error_logs |]. intros [xyz u].
  effects.
Qed.

End Traces.

Section UnboundPosition.

Context {F : Type} `{Scalar F} `{Linalg F} `{Transformations F}.

Lemma position_error_unbound (s : OSC F) ref_frame (q x target u : vec F)
    (w w' : world F) xyz u' :
  firstn 3 (ctrlr_dof s) = [false; false; false] ->
  position_error s ref_frame q x target u w = (inr (xyz, u'), w') ->
  xyz = None.
Proof.
  intros Hm. unfold position_error. rewrite Hm. simpl.
  unfold ret. intros E. inversion E. reflexivity.
Qed.

Lemma task_error_unbound (s : OSC F) ref_frame (q x target : vec F)
    (w w' : world F) xyz u :
  firstn 3 (ctrlr_dof s) = [false; false; false] ->
  task_error s ref_frame q x target w = (inr (xyz, u), w') ->
  xyz = None.
Proof.
  intros Hm E. unfold task_error in E.
  apply bind_ok in E. destruct E as [[xyz0 u0] [w1 [E0 E]]].
  apply position_error_unbound in E0; [| exact Hm]. subst xyz0.
  apply bind_ok in E. destruct E as [u1 [w2 [_ E]]].
  apply bind_ok in E. destruct E as [u2 [w3 [_ E]]].
  unfold ret in E. inversion E. reflexivity.
Qed.

Lemma task_force_unbound (q dq target : vec F) target_vel ref_frame xyz_offset
    (w w' : world F) J M_inv Mx xyz u_task u :
  firstn 3 (ctrlr_dof (self w)) = [false; false; false] ->
  task_force q dq target target_vel ref_frame xyz_offset w
    = (inr (J, M_inv, Mx, xyz, u_task, u), w') ->
  xyz = None.
Proof.
  intros Hm E. unfold task_force in E.
  apply bind_ok in E. destruct E as [w0 [w1 [E0 E]]].
  unfold get in E0. inversion E0; subst w0 w1; clear E0.
  unfold task_force_of in E.
  apply bind_ok in E. destruct E as [[] [w1 [_ E]]].
  apply bind_ok in E. destruct E as [tv [w2 [_ E]]].
  apply bind_ok in E. destruct E as [J0 [w3 [_ E]]].
  apply bind_ok in E. destruct E as [[[M0 Mi0] Mx0] [w4 [_ E]]].
  apply bind_ok in E. destruct E as [[xyz0 u0] [w5 [Ete E]]].
  apply task_error_unbound in Ete; [| exact Hm]. subst xyz0.
  apply bind_ok in E. destruct E as [[u1 u2] [w6 [_ E]]].
  unfold ret in E. inversion E. reflexivity.
Qed.

(** C9.  With [ki != 0] and a mask whose three position flags are false,
    generate() never returns a torque; and whenever the computation gets
    as far as the integrated error term, it stops there with an
    UnboundLocalError (the variable [xyz] was never assigned), in the state
    it had reached, the integrated error unchanged. *)
Theorem generate_unbound_xyz
    (q dq target : vec F) (target_vel : option (vec F))
    (ref_frame : string) (xyz_offset : option (vec F)) (w : world F) :
  feqb (ki (self w)) f0 = false ->
  firstn 3 (ctrlr_dof (self w)) = [false; false; false] ->
  (forall v w', generate q dq target target_vel ref_frame xyz_offset w
                <> (inr v, w')) /\
  (forall r w1,
     task_force q dq target target_vel ref_frame xyz_offset w = (inr r, w1) ->
     generate q dq target target_vel ref_frame xyz_offset w
       = (inl UnboundLocalError, w1) /\
     integrated_error (self w1) = integrated_error (self w)).
Proof.
  intros Hki Hm.
  assert (Hreach : forall r w1,
     task_force q dq target target_vel ref_frame xyz_offset w = (inr r, w1) ->
     generate q dq target target_vel ref_frame xyz_offset w
       = (inl UnboundLocalError, w1) /\
     integrated_error (self w1) = integrated_error (self w)).
  { intros [[[[[J M_inv] Mx] xyz] u_task] u] w1 E.
    assert (xyz = None) as -> by (eapply task_force_unbound; eauto).
    pose proof (task_force_keeps_self q dq target target_vel ref_frame
                  xyz_offset _ E) as Hs.
    split; [| rewrite Hs; reflexivity].
    unfold generate. erewrite bind_eq by exact E.
    eapply bind_raise. unfold integral_term, bind, get.
    rewrite Hs, Hki. reflexivity. }
  split; [| exact Hreach].
  intros v w' E.
  pose proof E as E'. unfold generate in E'.
  apply bind_ok in E'. destruct E' as [r [w1 [Etf _]]].
  apply Hreach in Etf. destruct Etf as [Etf _].
  rewrite Etf in E. discriminate E.
Qed.

End UnboundPosition.

Lemma generate_unbound_xyz_witness :
  let w := {| self := orientation_only; calls := [] |} in
  exists w1,
    generate (np_zeros 6) (np_zeros 6) (np_zeros 6) None "EE" None w
      = (inl UnboundLocalError, w1) /\
    integrated_error (self w1) = [0; 0; 0]%Qc.
Proof.
  intros w.
  destruct (task_force (np_zeros 6) (np_zeros 6) (np_zeros 6) None "EE" None w)
    as [[e | r] w1] eqn:E.
  - exfalso. apply (f_equal fst) in E. vm_compute in E. discriminate E.
  - exists w1.
    exact (proj2 (generate_unbound_xyz (np_zeros 6) (np_zeros 6) (np_zeros 6)
                    None "EE" None w eq_refl eq_refl) r w1 E).
Defined.

(** ** The frame of the orientation *)

Section OrientationFrame.

Context {F : Type} `{Scalar F} `{Linalg F} `{Transformations F}.

Lemma select_app {A} (m1 m2 : list bool) (a1 a2 : list A) :
  length m1 = length a1 ->
  select (m1 ++ m2) (a1 ++ a2) = select m1 a1 ++ select m2 a2.
Proof.
  revert a1. induction m1 as [| b m1 IH]; intros [| x a1] Hl;
    simpl in Hl; try discriminate.
  - reflexivity.
  - simpl. rewrite IH by lia. destruct b; reflexivity.
Qed.

Lemma select_length {A} (m : list bool) (a : list A) :
  length m = length a -> length (select m a) = count_true m.
Proof.
  unfold count_true.
  revert a. induction m as [| b m IH]; intros [| x a] Hl;
    simpl in Hl; try discriminate.
  - reflexivity.
  - simpl. destruct b; simpl; rewrite IH by lia; reflexivity.
Qed.

Lemma np_mask_split (mask : list bool) (a r : vec F) :
  length a = 6 ->
  np_mask mask a = inr r ->
  r = select (firstn 3 mask) (firstn 3 a) ++ select (skipn 3 mask) (skipn 3 a)
  /\ length (select (firstn 3 mask) (firstn 3 a)) = count_true (firstn 3 mask).
Proof.
  intros Ha. unfold np_mask.
  destruct (Nat.eqb (length mask) (length a)) eqn:E; [| discriminate].
  apply Nat.eqb_eq in E. intros E'. inversion E'; subst r; clear E'.
  assert (Hl : length (firstn 3 mask) = length (firstn 3 a))
    by (rewrite !length_firstn; lia).
  split.
  - rewrite <- select_app by exact Hl.
    rewrite !firstn_skipn. reflexivity.
  - apply select_length, Hl.
Qed.

Lemma set_first3_shape (a v r : vec F) :
  set_first3 a v = inr r ->
  length a = 6 -> length r = 6 /\ skipn 3 r = skipn 3 a.
Proof.
  unfold set_first3. intros E Ha.
  apply rbind_ok in E. destruct E as [n [_ E]].
  destruct (Nat.eqb n 3); [| discriminate].
  injection E as <-.
  destruct a as [| a0 [| a1 [| a2 [| a3 [| a4 [| a5 [| a6 a]]]]]]];
    try discriminate Ha.
  split; reflexivity.
Qed.

Lemma position_error_shape (s : OSC F) ref_frame (q x target : vec F)
    (w w' : world F) xyz u :
  position_error s ref_frame q x target (np_zeros 6) w = (inr (xyz, u), w') ->
  length u = 6 /\ skipn 3 u = skipn 3 (np_zeros 6).
Proof.
  unfold position_error.
  destruct (Nat.ltb 0 (count_true (firstn 3 (ctrlr_dof s)))).
  - intros E. apply bind_ok in E. destruct E as [[] [w1 [_ E]]].
    apply bind_ok in E. destruct E as [u' [w2 [E1 E]]].
    unfold ret in E. inversion E; subst; clear E.
    apply lift_ok in E1. destruct E1 as [E1 _].
    apply rbind_ok in E1. destruct E1 as [d [_ E1]].
    apply set_first3_shape in E1; auto.
  - unfold ret. intros E. inversion E. auto.
Qed.

Lemma set_last3_tail (a v r : vec F) :
  set_last3 a v = inr r ->
  length a = 6 ->
  skipn 3 r = map (fun i => nth (bidx (length v) i) v f0) (seq 0 3)
  /\ length r = 6.
Proof.
  unfold set_last3. intros E Ha.
  apply rbind_ok in E. destruct E as [n [_ E]].
  destruct (Nat.eqb n 3); [| discriminate].
  injection E as <-.
  destruct a as [| a0 [| a1 [| a2 [| a3 [| a4 [| a5 [| a6 a]]]]]]];
    try discriminate Ha.
  split; reflexivity.
Qed.

Lemma orientation_tail (s : OSC F) (q target a b a' b' : vec F)
    (w1 w1' w2 w2' : world F) :
  orientation s q target a w1 = (inr a', w1') ->
  orientation s q target b w2 = (inr b', w2') ->
  length a = 6 -> length b = 6 -> skipn 3 a = skipn 3 b ->
  length a' = 6 /\ length b' = 6 /\ skipn 3 a' = skipn 3 b'.
Proof.
  unfold orientation.
  destruct (Nat.ltb 0 (count_true (skipn 3 (ctrlr_dof s)))).
  - intros Ea Eb La Lb _.
    apply bind_ok in Ea. destruct Ea as [[] [wa [_ Ea]]].
    apply bind_ok in Eb. destruct Eb as [[] [wb [_ Eb]]].
    apply lift_ok in Ea. destruct Ea as [Ea _].
    apply lift_ok in Eb. destruct Eb as [Eb _].
    apply rbind_ok in Ea. destruct Ea as [ea [E1 Ea]].
    apply rbind_ok in Eb. destruct Eb as [eb [E2 Eb]].
    rewrite E1 in E2. inversion E2; subst eb; clear E2.
    apply set_last3_tail in Ea; [| exact La].
    apply set_last3_tail in Eb; [| exact Lb].
    destruct Ea as [Ea La'], Eb as [Eb Lb'].
    repeat split; try assumption. congruence.
  - unfold ret. intros Ea Eb La Lb Hab.
    inversion Ea; inversion Eb; subst. auto.
Qed.

End OrientationFrame.

Section OrientationFrameClaim.

Context {F : Type} `{Scalar F} `{Linalg F} `{Transformations F}.

Lemma pure_state {A} (c : Py (world F) A) (w w' : world F) (r : result A) :
  (forall w0, snd (c w0) = w0) -> c w = (r, w') -> w' = w.
Proof. intros Hc E. rewrite <- (Hc w), E. reflexivity. Qed.

Lemma query_calls (c : call F) (w w' : world F) r :
  query c w = (r, w') -> calls w' = calls w ++ [c].
Proof. unfold query. intros E. injection E as _ <-. reflexivity. Qed.

Lemma jacobian_calls (s : OSC F) ref_frame (q x : vec F) (w w' : world F) r :
  jacobian s ref_frame q x w = (r, w') ->
  calls w' = calls w ++ [Call_J ref_frame q x].
Proof.
  unfold jacobian, bind, query, lift. simpl.
  destruct (np_mask_rows _ _); intros E; injection E as _ <-; reflexivity.
Qed.

Lemma inertia_calls (s : OSC F) (q : vec F) (J : matrix F) (w w' : world F) r :
  inertia s q J w = (r, w') -> calls w' = calls w ++ [Call_M q].
Proof.
  unfold inertia, bind, query, lift. simpl.
  match goal with |- context [rbind ?a ?k] => destruct (rbind a k) end;
    intros E; injection E as _ <-; reflexivity.
Qed.

Lemma position_error_calls (s : OSC F) ref_frame (q x target u : vec F)
    (w w' : world F) r :
  position_error s ref_frame q x target u w = (r, w') ->
  calls w' = calls w ++
    (if Nat.ltb 0 (count_true (firstn 3 (ctrlr_dof s)))
     then [Call_Tx ref_frame q x] else []).
Proof.
  unfold position_error.
  destruct (Nat.ltb 0 (count_true (firstn 3 (ctrlr_dof s)))).
  - unfold bind, query, lift, ret. simpl.
    match goal with |- context [rbind ?a ?k] => destruct (rbind a k) end;
      intros E; injection E as _ <-; reflexivity.
  - unfold ret. intros E. injection E as _ <-. rewrite app_nil_r. reflexivity.
Qed.

Lemma orientation_calls (s : OSC F) (q target u : vec F) (w w' : world F) r :
  orientation s q target u w = (r, w') ->
  calls w' = calls w ++
    (if Nat.ltb 0 (count_true (skipn 3 (ctrlr_dof s)))
     then [Call_R "EE" q] else []).
Proof.
  unfold orientation.
  destruct (Nat.ltb 0 (count_true (skipn 3 (ctrlr_dof s)))).
  - unfold bind, query, lift. simpl.
    match goal with |- context [rbind ?a ?k] => destruct (rbind a k) end;
      intros E; injection E as _ <-; reflexivity.
  - unfold ret. intros E. injection E as _ <-. rewrite app_nil_r. reflexivity.
Qed.

Lemma task_force_calls (q dq target : vec F) (target_vel : option (vec F))
    (ref_frame : string) (xyz_offset : option (vec F)) (w w' : world F) r :
  task_force q dq target target_vel ref_frame xyz_offset w = (inr r, w') ->
  let x := match xyz_offset with
           | None => ZEROS_THREE (self w)
           | Some x => x
           end in
  calls w' = calls w ++
    [Call_J ref_frame q x; Call_M q] ++
    (if Nat.ltb 0 (count_true (firstn 3 (ctrlr_dof (self w))))
     then [Call_Tx ref_frame q x] else []) ++
    (if Nat.ltb 0 (count_true (skipn 3 (ctrlr_dof (self w))))
     then [Call_R "EE" q] else []).
Proof.
  intros E x. unfold task_force in E.
  apply bind_ok in E. destruct E as [w0 [w1 [E0 E]]].
  unfold get in E0. injection E0 as <- <-.
  unfold task_force_of in E. fold x in E.
  apply bind_ok in E. destruct E as [[] [w1 [E1 E]]].
  apply pure_state in E1; [subst w1 | apply assert_pure].
  apply bind_ok in E. destruct E as [tv [w2 [E2 E]]].
  assert (w2 = w) as ->.
  { destruct target_vel as [tv0 |].
    - apply bind_ok in E2. destruct E2 as [[] [w3 [E3 E2]]].
      apply pure_state in E3; [subst w3 | apply assert_pure].
      unfold ret in E2. injection E2 as _ <-. reflexivity.
    - unfold ret in E2. injection E2 as _ <-. reflexivity. }
  apply bind_ok in E. destruct E as [J [w3 [EJ E]]].
  apply jacobian_calls in EJ.
  apply bind_ok in E. destruct E as [[[M M_inv] Mx] [w4 [EM E]]].
  apply inertia_calls in EM.
  apply bind_ok in E. destruct E as [[xyz u] [w5 [ET E]]].
  apply bind_ok in E. destruct E as [[u1 u2] [w6 [EC E]]].
  apply pure_state in EC; [subst w6 | apply lift_pure].
  unfold ret in E. injection E as _ <-.
  unfold task_error in ET.
  apply bind_ok in ET. destruct ET as [[xyz0 a] [w7 [EP ET]]].
  apply position_error_calls in EP.
  apply bind_ok in ET. destruct ET as [a' [w8 [EO ET]]].
  apply orientation_calls in EO.
  apply bind_ok in ET. destruct ET as [a2 [w9 [EK ET]]].
  apply pure_state in EK; [subst w9 | apply lift_pure].
  unfold ret in ET. injection ET as _ _ <-.
  rewrite EO, EP, EM, EJ. rewrite <- !app_assoc. reflexivity.
Qed.

Lemma generate_logs (q dq target : vec F) (target_vel : option (vec F))
    (ref_frame : string) (xyz_offset : option (vec F)) (w : world F) r w' :
  generate q dq target target_vel ref_frame xyz_offset w = (r, w') ->
  exists l, calls w' = calls w ++ l /\
    Forall (call_allowed ref_frame
              match xyz_offset with
              | None => ZEROS_THREE (self w)
              | Some x => x
              end) l.
Proof.
  intros E. unfold generate, task_force in E.
  match type of E with
  | bind (bind get ?f) ?K w = _ => change (bind (f w) K w = (r, w')) in E
  end.
  revert E. apply logs_bind.
  - apply task_force_of_logs.
  - intros [[[[[J M_inv] Mx] xyz] u_task] u].
    unfold integral_term, joint_torque. effects.
Qed.


End OrientationFrameClaim.

(** ** Exact scalars *)

Lemma Qc_ltb_lt (x y : Qc) : Qc_ltb x y = true <-> (x < y)%Qc.
Proof.
  unfold Qc_ltb. rewrite Qclt_alt.
  destruct (x ?= y)%Qc; split; intros E; congruence.
Qed.

Lemma Qc_eq_bool_eq (x y : Qc) : Qc_eq_bool x y = true <-> x = y.
Proof.
  split; [apply Qc_eq_bool_correct |].
  intros ->. unfold Qc_eq_bool. destruct (Qc_eq_dec y y); congruence.
Qed.

#[export] Instance Qc_ExactScalar : ExactScalar Qc.
Proof.
  split.
  - exact Qcrt.
  - exact Qc_eq_bool_eq.
  - intros x y Hxy. simpl in *.
    destruct (Qc_ltb y x) eqn:Hyx; [exfalso | reflexivity].
    apply Qc_ltb_lt in Hxy, Hyx.
    exact (Qclt_not_le _ _ Hxy (Qclt_le_weak _ _ Hyx)).
  - intros x. simpl. apply Bool.eq_iff_eq_true.
    rewrite !Qc_ltb_lt, (Qclt_minus_iff (- x)%Qc 0%Qc).
    rewrite Qcopp_involutive, Qcplus_0_l. reflexivity.
  - intros x. simpl. apply Bool.eq_iff_eq_true.
    rewrite !Qc_ltb_lt, (Qclt_minus_iff x 0%Qc).
    rewrite Qcplus_0_l. reflexivity.
Qed.

Section ExactSums.

Context {F : Type} `{ExactScalar F}.

Local Open Scope scalar_scope.

Add Ring scalar_ring_inst : scalar_ring.

Lemma sum_n_S (n : nat) (f : nat -> F) : sum_n (S n) f = sum_n n f + f n.
Proof.
  unfold sum_n. rewrite seq_S, fold_left_app. reflexivity.
Qed.

Lemma sum_n_0 (f : nat -> F) : sum_n 0 f = f0.
Proof. reflexivity. Qed.

Lemma sum_n_ext (n : nat) (f g : nat -> F) :
  (forall k, k < n -> f k = g k) -> sum_n n f = sum_n n g.
Proof.
  induction n as [| n IH]; intros E; [reflexivity |].
  rewrite !sum_n_S, IH, E by auto. reflexivity.
Qed.

Lemma sum_n_zero (n : nat) : sum_n n (fun _ => f0) = f0.
Proof.
  induction n as [| n IH]; [reflexivity |].
  rewrite sum_n_S, IH. ring.
Qed.

Lemma sum_n_sub (n : nat) (f g : nat -> F) :
  sum_n n (fun k => f k - g k) = sum_n n f - sum_n n g.
Proof.
  induction n as [| n IH]; [rewrite !sum_n_0; ring |].
  rewrite !sum_n_S, IH. ring.
Qed.

Lemma sum_n_add (n : nat) (f g : nat -> F) :
  sum_n n (fun k => f k + g k) = sum_n n f + sum_n n g.
Proof.
  induction n as [| n IH]; [rewrite !sum_n_0; ring |].
  rewrite !sum_n_S, IH. ring.
Qed.

Lemma sum_n_mul_l (n : nat) (a : F) (f : nat -> F) :
  a * sum_n n f = sum_n n (fun k => a * f k).
Proof.
  induction n as [| n IH]; [rewrite !sum_n_0; ring |].
  rewrite !sum_n_S, <- IH. ring.
Qed.

Lemma sum_n_mul_r (n : nat) (a : F) (f : nat -> F) :
  sum_n n f * a = sum_n n (fun k => f k * a).
Proof.
  induction n as [| n IH]; [rewrite !sum_n_0; ring |].
  rewrite !sum_n_S, <- IH. ring.
Qed.

Lemma sum_n_swap (m n : nat) (f : nat -> nat -> F) :
  sum_n m (fun i => sum_n n (fun j => f i j))
  = sum_n n (fun j => sum_n m (fun i => f i j)).
Proof.
  induction m as [| m IH].
  - rewrite sum_n_0. symmetry. apply sum_n_zero.
  - rewrite sum_n_S, IH, <- sum_n_add.
    apply sum_n_ext. intros j _. rewrite sum_n_S. reflexivity.
Qed.

(** A sum against a row or a column of the identity matrix. *)
Lemma sum_n_delta_r (n j : nat) (f : nat -> F) :
  j < n ->
  sum_n n (fun k => f k * (if Nat.eqb k j then f1 else f0)) = f j.
Proof.
  induction n as [| n IH]; intros Hj; [lia |].
  rewrite sum_n_S. destruct (Nat.eq_dec j n) as [-> | Hne].
  - rewrite Nat.eqb_refl.
    rewrite (sum_n_ext _ (fun _ => f0)).
    + rewrite sum_n_zero. ring.
    + intros k Hk. replace (Nat.eqb k n) with false; [ring |].
      symmetry. apply Nat.eqb_neq. lia.
  - rewrite IH by lia.
    replace (Nat.eqb n j) with false; [ring |].
    symmetry. apply Nat.eqb_neq. lia.
Qed.

Lemma sum_n_delta_l (n i : nat) (f : nat -> F) :
  i < n ->
  sum_n n (fun k => (if Nat.eqb i k then f1 else f0) * f k) = f i.
Proof.
  intros Hi. rewrite <- (sum_n_delta_r f Hi).
  apply sum_n_ext. intros k _. rewrite (Nat.eqb_sym i k). ring.
Qed.

End ExactSums.

(** ** The orientation error *)

Section OrientationError.

Context {F : Type} `{ExactScalar F} `{Transformations F}.

Local Open Scope scalar_scope.

Add Ring scalar_ring_orientation : scalar_ring.

Lemma feqb_opp_0 (x : F) : feqb (- x) f0 = feqb x f0.
Proof.
  apply Bool.eq_iff_eq_true. rewrite !feqb_eq. split; intros E.
  - replace x with (- - x) by ring. rewrite E. ring.
  - rewrite E. ring.
Qed.

Lemma np_sign_opp (x : F) : np_sign (- x) = - np_sign x.
Proof.
  unfold np_sign. rewrite fltb_opp_l, fltb_opp_r, feqb_opp_0.
  destruct (fltb x f0) eqn:Hneg.
  - rewrite (fltb_asym _ _ Hneg). ring.
  - destruct (fltb f0 x); [reflexivity |].
    destruct (feqb x f0); ring.
Qed.

Lemma quaternion_multiply_opp_l (p q : quaternion F) :
  quaternion_multiply (quaternion_opp p) q
  = quaternion_opp (quaternion_multiply p q).
Proof.
  destruct p, q. unfold quaternion_multiply, quaternion_opp. simpl.
  f_equal; ring.
Qed.

Lemma quaternion_multiply_opp_r (p q : quaternion F) :
  quaternion_multiply p (quaternion_conjugate (quaternion_opp q))
  = quaternion_opp (quaternion_multiply p (quaternion_conjugate q)).
Proof.
  destruct p, q. unfold quaternion_multiply, quaternion_conjugate, quaternion_opp.
  simpl. f_equal; ring.
Qed.

Lemma quaternion_multiply_conjugate_vector (q : quaternion F) :
  quaternion_vector (quaternion_multiply q (quaternion_conjugate q))
  = [f0; f0; f0].
Proof.
  destruct q. unfold quaternion_multiply, quaternion_conjugate, quaternion_vector.
  simpl. repeat f_equal; ring.
Qed.

Lemma error_of_opp (ko kp : F) (q_r : quaternion F) :
  (let? c := py_truediv (- ko) kp in
   ok (map (fun x => c * x * np_sign (qw (quaternion_opp q_r)))
         (quaternion_vector (quaternion_opp q_r))))%result
  = (let? c := py_truediv (- ko) kp in
     ok (map (fun x => c * x * np_sign (qw q_r)) (quaternion_vector q_r)))%result.
Proof.
  destruct (py_truediv (- ko) kp) as [e | c]; [reflexivity |].
  destruct q_r as [a b c0 d]. simpl. rewrite np_sign_opp.
  unfold ok. apply f_equal.
  repeat (apply f_equal2; [ring |]). reflexivity.
Qed.

Lemma scaled_zero (c x : F) : c * f0 * x = f0.
Proof. ring. Qed.

End OrientationError.

(** ** Negation on binary64

    Negation is exact on binary64 and rounding is symmetric, so that
    negating the operands of a product or of a sum negates the result, up
    to the sign of a zero. *)

Lemma sf_same_refl a : sf_same a a.
Proof. destruct a; simpl; auto. Qed.

Lemma sf_same_sym a b : sf_same a b -> sf_same b a.
Proof. destruct a, b; simpl; auto; discriminate. Qed.

Lemma sf_same_trans a b c : sf_same a b -> sf_same b c -> sf_same a c.
Proof. destruct a, b, c; simpl; auto; try discriminate; congruence. Qed.

Lemma sf_same_inv a b :
  sf_same a b ->
  (exists s s', a = S754_zero s /\ b = S754_zero s') \/ a = b.
Proof.
  destruct a, b; simpl; intros E; try discriminate E; auto; left; eauto.
Qed.

Lemma SFopp_same a b : sf_same a b -> sf_same (SFopp a) (SFopp b).
Proof.
  intros E. apply sf_same_inv in E.
  destruct E as [(s & s' & -> & ->) | ->]; [exact I | apply sf_same_refl].
Qed.

Lemma SFopp_involutive a : SFopp (SFopp a) = a.
Proof. destruct a as [s | s | | s m e]; simpl; try rewrite negb_involutive; reflexivity. Qed.

Lemma SFopp_round prec emax sx mx ex lx :
  SFopp (binary_round_aux prec emax sx mx ex lx)
  = binary_round_aux prec emax (negb sx) mx ex lx.
Proof.
  unfold binary_round_aux.
  destruct (shr_fexp prec emax mx ex lx) as [mrs e].
  destruct (shr_fexp prec emax _ e loc_Exact) as [mrs' e'].
  destruct (shr_m mrs'); [reflexivity | | reflexivity].
  destruct (Z.leb e' (emax - prec)); reflexivity.
Qed.

Lemma SFmul_opp_l prec emax x y :
  SFmul prec emax (SFopp x) y = SFopp (SFmul prec emax x y).
Proof.
  destruct x as [sx | sx | | sx mx ex], y as [sy | sy | | sy my ey]; simpl;
    try reflexivity; try (destruct sx, sy; reflexivity).
  rewrite SFopp_round. destruct sx, sy; reflexivity.
Qed.

Lemma SFmul_opp_r prec emax x y :
  SFmul prec emax x (SFopp y) = SFopp (SFmul prec emax x y).
Proof.
  destruct x as [sx | sx | | sx mx ex], y as [sy | sy | | sy my ey]; simpl;
    try reflexivity; try (destruct sx, sy; reflexivity).
  rewrite SFopp_round. destruct sx, sy; reflexivity.
Qed.

Lemma SFmul_same prec emax a a' b b' :
  sf_same a a' -> sf_same b b' ->
  sf_same (SFmul prec emax a b) (SFmul prec emax a' b').
Proof.
  intros Ha Hb.
  apply sf_same_inv in Ha. apply sf_same_inv in Hb.
  destruct Ha as [(s & s' & -> & ->) | ->], Hb as [(t & t' & -> & ->) | ->].
  - exact I.
  - destruct b'; simpl; auto.
  - destruct a'; simpl; auto.
  - apply sf_same_refl.
Qed.

Lemma SFsub_add prec emax x y :
  SFsub prec emax x y = SFadd prec emax x (SFopp y).
Proof.
  destruct x as [sx | sx | | sx mx ex], y as [sy | sy | | sy my ey]; simpl;
    try reflexivity; destruct sx, sy; reflexivity.
Qed.

Lemma SFopp_normalize prec emax m e :
  sf_same (binary_normalize prec emax (- m) e false)
          (SFopp (binary_normalize prec emax m e false)).
Proof.
  destruct m; simpl; [exact I | |]; unfold binary_round;
    destruct (shl_align _ _ _) as [mz ez]; rewrite SFopp_round;
    apply sf_same_refl.
Qed.

Lemma SFadd_opp prec emax x y :
  sf_same (SFadd prec emax (SFopp x) (SFopp y))
          (SFopp (SFadd prec emax x y)).
Proof.
  destruct x as [sx | sx | | sx mx ex], y as [sy | sy | | sy my ey]; simpl;
    try exact I; try reflexivity; try (destruct sx, sy; simpl; auto; fail).
  set (ez := Z.min ex ey).
  generalize (fst (shl_align mx ex ez)) (fst (shl_align my ey ez)).
  intros a b.
  match goal with
  | |- sf_same (binary_normalize _ _ ?u _ _) (SFopp (binary_normalize _ _ ?v _ _)) =>
      replace u with (- v)%Z by (destruct sx, sy; unfold cond_Zopp, negb; lia)
  end.
  apply SFopp_normalize.
Qed.

Lemma SFadd_same prec emax a a' b b' :
  sf_same a a' -> sf_same b b' ->
  sf_same (SFadd prec emax a b) (SFadd prec emax a' b').
Proof.
  intros Ha Hb.
  apply sf_same_inv in Ha. apply sf_same_inv in Hb.
  destruct Ha as [(s & s' & -> & ->) | ->], Hb as [(t & t' & -> & ->) | ->].
  - destruct s, s', t, t'; exact I.
  - destruct b' as [t | t | |]; simpl; try reflexivity.
    destruct s, s', t; exact I.
  - destruct a' as [s | s | |]; simpl; try reflexivity.
    destruct s, t, t'; exact I.
  - apply sf_same_refl.
Qed.

(** The rules of negation for the operations of the kernel. *)

Local Open Scope float_scope.

Lemma negated_opp (x : float) : negated x (- x).
Proof. unfold negated. rewrite opp_spec. apply sf_same_refl. Qed.

Lemma negated_opp_opp (x : float) : negated (- x) x.
Proof.
  unfold negated. rewrite opp_spec, SFopp_involutive. apply sf_same_refl.
Qed.

Lemma negated_neg (x x' : float) : negated x x' -> negated (- x) (- x').
Proof.
  unfold negated. rewrite !opp_spec. apply SFopp_same.
Qed.

Lemma negated_mul_l (a a' b : float) : negated a a' -> negated (a * b) (a' * b).
Proof.
  unfold negated. intros Ha. rewrite !mul_spec. unfold SF64mul.
  rewrite <- SFmul_opp_l. apply SFmul_same; [exact Ha | apply sf_same_refl].
Qed.

Lemma negated_mul_r (a b b' : float) : negated b b' -> negated (a * b) (a * b').
Proof.
  unfold negated. intros Hb. rewrite !mul_spec. unfold SF64mul.
  rewrite <- SFmul_opp_r. apply SFmul_same; [apply sf_same_refl | exact Hb].
Qed.

Lemma negated_add (a a' b b' : float) :
  negated a a' -> negated b b' -> negated (a + b) (a' + b').
Proof.
  unfold negated. intros Ha Hb. rewrite !add_spec. unfold SF64add.
  eapply sf_same_trans; [| apply SFadd_opp].
  apply SFadd_same; assumption.
Qed.

Lemma negated_sub (a a' b b' : float) :
  negated a a' -> negated b b' -> negated (a - b) (a' - b').
Proof.
  unfold negated. intros Ha Hb. rewrite !sub_spec. unfold SF64sub.
  rewrite !SFsub_add.
  eapply sf_same_trans; [| apply SFadd_opp].
  apply SFadd_same; [exact Ha | apply SFopp_same, Hb].
Qed.

Lemma negated_twice (a a' b b' : float) :
  negated a a' -> negated b b' -> same_number (a' * b') (a * b).
Proof.
  unfold negated, same_number. intros Ha Hb. rewrite !mul_spec. unfold SF64mul.
  eapply sf_same_trans; [apply SFmul_same; eassumption |].
  rewrite SFmul_opp_l, SFmul_opp_r, SFopp_involutive. apply sf_same_refl.
Qed.

Lemma SF_sign_cases (a a' : spec_float) :
  sf_same a' (SFopp a) ->
  let z := S754_zero false in
  (SFltb a z = true /\ SFltb a' z = false /\ SFltb z a' = true) \/
  (SFltb a z = false /\ SFltb z a = true /\ SFltb a' z = true) \/
  (SFltb a z = false /\ SFltb z a = false /\ SFeqb a z = true /\
   SFltb a' z = false /\ SFltb z a' = false /\ SFeqb a' z = true) \/
  (SFltb a z = false /\ SFltb z a = false /\ SFeqb a z = false /\
   SFltb a' z = false /\ SFltb z a' = false /\ SFeqb a' z = false).
Proof.
  intros E z. apply sf_same_inv in E.
  destruct E as [(s & s' & -> & E) | ->].
  - destruct a as [t | t | | t m e]; try discriminate E.
    right. right. left. repeat split; reflexivity.
  - destruct a as [t | t | | t m e]; simpl.
    + right. right. left. repeat split; reflexivity.
    + destruct t; [left | right; left]; repeat split; reflexivity.
    + right. right. right. repeat split; reflexivity.
    + destruct t; [left | right; left]; repeat split; reflexivity.
Qed.

Lemma negated_sign (x x' : float) :
  negated x x' -> negated (np_sign x) (np_sign x').
Proof.
  intros Hx. pose proof (SF_sign_cases _ _ Hx) as C.
  unfold np_sign.
  change (@fltb float float_Scalar) with PrimFloat.ltb.
  change (@feqb float float_Scalar) with PrimFloat.eqb.
  change (@f0 float float_Scalar) with 0%float.
  change (@f1 float float_Scalar) with 1%float.
  change (@fopp float float_Scalar) with PrimFloat.opp.
  rewrite !ltb_spec, !eqb_spec.
  change (Prim2SF 0) with (S754_zero false).
  cbv zeta in C.
  destruct C as [(-> & -> & ->) | [(-> & -> & ->) |
                 [(-> & -> & -> & -> & -> & ->) | (-> & -> & -> & -> & -> & ->)]]].
  - apply negated_opp_opp.
  - apply negated_opp.
  - unfold negated. change (Prim2SF 0) with (S754_zero false). exact I.
  - exact Hx.
Qed.

Create HintDb negation.
#[local] Hint Resolve negated_opp negated_opp_opp negated_neg negated_mul_l
  negated_mul_r negated_add negated_sub : negation.

Lemma quaternion_multiply_negated_l (p q : quaternion float) :
  negated_quaternion (quaternion_multiply p q)
    (quaternion_multiply (quaternion_opp p) q).
Proof.
  destruct p as [w1 x1 y1 z1], q as [w0 x0 y0 z0].
  unfold negated_quaternion, quaternion_multiply, quaternion_opp.
  cbn [qw qx qy qz fadd fsub fmul fopp float_Scalar].
  repeat split; auto 10 with negation.
Qed.

Lemma quaternion_multiply_negated_r (p q : quaternion float) :
  negated_quaternion (quaternion_multiply p (quaternion_conjugate q))
    (quaternion_multiply p (quaternion_conjugate (quaternion_opp q))).
Proof.
  destruct p as [w1 x1 y1 z1], q as [w0 x0 y0 z0].
  unfold negated_quaternion, quaternion_multiply, quaternion_conjugate,
    quaternion_opp.
  cbn [qw qx qy qz fadd fsub fmul fopp float_Scalar].
  repeat split; auto 10 with negation.
Qed.

Lemma error_of_negated (ko kp : float) (q_r q_r' : quaternion float) :
  negated_quaternion q_r q_r' ->
  same_errors
    (let? c := py_truediv (- ko)%F kp in
     ok (map (fun x => c * x * np_sign (qw q_r'))%F (quaternion_vector q_r')))%result
    (let? c := py_truediv (- ko)%F kp in
     ok (map (fun x => c * x * np_sign (qw q_r))%F (quaternion_vector q_r)))%result.
Proof.
  intros (Hw & Hx & Hy & Hz).
  destruct (py_truediv (- ko)%F kp) as [e | c]; [reflexivity |].
  unfold rbind, ok, same_errors, quaternion_vector. simpl map.
  change (@fmul float float_Scalar) with PrimFloat.mul.
  apply negated_sign in Hw.
  repeat apply Forall2_cons; try apply Forall2_nil;
    apply negated_twice; auto with negation.
Qed.

Local Close Scope float_scope.

(** C2, as amended.  In any arithmetic, when one of the last three mask
    flags is set and [kp] is not zero, the orientation step of generate()
    asks for the rotation matrix of the end effector and writes, as last
    three components of the task error, the vector part of
    [q_r = q_target (x) conjugate(q_current)] scaled by [-ko/kp] and by the
    sign of the scalar part of [q_r]: the factor [-1] for a negative and
    [1] for a positive scalar part.  In exact arithmetic this error is the
    same for a quaternion and its opposite, on the target side and on the
    current side, and it is zero when the target and the current quaternion
    are equal.  In binary64 the errors for a quaternion and its opposite
    are the same numbers: they differ at most in the sign of a zero. *)
Theorem orientation_error_double_cover :
  (forall (F : Type) (SF : Scalar F) (TF : Transformations F)
          (s : OSC F) (q target u : vec F) (w : world F),
     feqb (kp s) f0 = false ->
     Nat.ltb 0 (count_true (skipn 3 (ctrlr_dof s))) = true ->
     length u = 6 ->
     let q_d := unit_vector
                  (quaternion_from_euler_rxyz
                     (nth 3 target f0) (nth 4 target f0) (nth 5 target f0)) in
     let q_e := unit_vector
                  (quaternion_from_matrix
                     (robot_R (self_robot_config s) "EE" q)) in
     let q_r := quaternion_multiply q_d (quaternion_conjugate q_e) in
     orientation s q target u w
       = (inr (firstn 3 u ++
               map (fun x => (- ko s / kp s * x * np_sign (qw q_r))%F)
                 (quaternion_vector q_r)),
          {| self := self w; calls := calls w ++ [Call_R "EE" q] |}) /\
     (fltb (qw q_r) f0 = true -> np_sign (qw q_r) = (- f1)%F) /\
     (fltb (qw q_r) f0 = false -> fltb f0 (qw q_r) = true ->
      np_sign (qw q_r) = f1)) /\
  (forall (F : Type) (SF : Scalar F),
     ExactScalar F ->
     forall (ko kp : F) (p1 p2 : quaternion F),
       orientation_error ko kp (quaternion_opp p1) p2
         = orientation_error ko kp p1 p2 /\
       orientation_error ko kp p1 (quaternion_opp p2)
         = orientation_error ko kp p1 p2 /\
       (feqb kp f0 = false ->
        orientation_error ko kp p1 p1 = inr [f0; f0; f0])) /\
  (forall (ko kp : float) (p1 p2 : quaternion float),
     same_errors (orientation_error ko kp (quaternion_opp p1) p2)
                 (orientation_error ko kp p1 p2) /\
     same_errors (orientation_error ko kp p1 (quaternion_opp p2))
                 (orientation_error ko kp p1 p2)).
Proof.
  split; [| split].
  - intros F SF TF s q target u w Hkp Hmask Hu q_d q_e q_r.
    split; [| split].
    + unfold orientation. rewrite Hmask.
      unfold bind, query, lift, orientation_error, py_truediv.
      rewrite Hkp. fold q_d q_e q_r. simpl.
      destruct q_r as [a b c d]. reflexivity.
    + intros Hneg. unfold np_sign. rewrite Hneg. reflexivity.
    + intros Hneg Hpos. unfold np_sign. rewrite Hneg, Hpos. reflexivity.
  - intros F SF HE ko kp p1 p2. unfold orientation_error.
    split; [| split].
    + rewrite quaternion_multiply_opp_l. apply error_of_opp.
    + rewrite quaternion_multiply_opp_r. apply error_of_opp.
    + intros Hkp. rewrite quaternion_multiply_conjugate_vector.
      unfold py_truediv. rewrite Hkp. simpl.
      unfold ok. apply f_equal.
      repeat (apply f_equal2; [apply scaled_zero |]).
      reflexivity.
  - intros ko kp p1 p2. unfold orientation_error.
    split; apply error_of_negated.
    + apply quaternion_multiply_negated_l.
    + apply quaternion_multiply_negated_r.
Qed.

Lemma orientation_error_double_cover_witness :
  let w := {| self := turned_orientation; calls := [] |} in
  let p1 := {| qw := Q2Qc (3 # 5); qx := Q2Qc (4 # 5);
               qy := 0%Qc; qz := 0%Qc |} in
  let p2 := {| qw := 1%Qc; qx := 0%Qc; qy := 0%Qc; qz := 0%Qc |} in
  (exists e,
     fst (orientation turned_orientation
            (np_zeros 6) (np_zeros 6) (np_zeros 6) w) = inr e /\
     map this e = [0; 0; 0; 0; 0; 3 # 5]%Q) /\
  (orientation_error 1%Qc 1%Qc (quaternion_opp p1) p2
   = orientation_error 1%Qc 1%Qc p1 p2 /\
   exists e,
     orientation_error 1%Qc 1%Qc (quaternion_opp p1) p2 = inr e /\
     map this e = [- 4 # 5; 0; 0]%Q) /\
  same_errors
    (orientation_error 1%float 1%float
       (quaternion_opp binary64_quaternion) binary64_quaternion)
    (orientation_error 1%float 1%float
       binary64_quaternion binary64_quaternion).
Proof.
  intros w p1 p2.
  destruct orientation_error_double_cover as [Hf [Hx Hb]].
  split; [| split].
  - destruct (Hf Qc Qc_Scalar Qc_Transformations turned_orientation
                (np_zeros 6) (np_zeros 6) (np_zeros 6) w
                eq_refl eq_refl eq_refl) as [E _].
    eexists. rewrite E. split; [reflexivity |].
    vm_compute. reflexivity.
  - destruct (Hx Qc Qc_Scalar Qc_ExactScalar 1%Qc 1%Qc p1 p2) as [E _].
    split; [exact E |].
    eexists. split; [reflexivity |]. vm_compute. reflexivity.
  - exact (proj1 (Hb 1%float 1%float binary64_quaternion binary64_quaternion)).
Defined.

(** C2 as stated fails on binary64: for the target and the current
    quaternion both equal to (0.5, 0.5, 0.1, 0.7) the orientation error
    computed is not zero, its second component is [2^-56]. *)
Lemma orientation_error_counterexample :
  exists e,
    orientation_error 1%float 1%float binary64_quaternion binary64_quaternion
    = inr e /\
    nth 1 e f0 = 0x1p-56%float /\
    all_zero e = false.
Proof.
  eexists. split; [reflexivity |].
  split; vm_compute; reflexivity.
Qed.

(** ** Matrix algebra over exact scalars *)

Section MatrixAlgebra.

Context {F : Type} `{ExactScalar F}.

Local Open Scope scalar_scope.

Add Ring scalar_ring_matrix : scalar_ring.

Lemma nth_map_seq {A : Type} (g : nat -> A) (m i : nat) (d : A) :
  i < m -> nth i (map g (seq 0 m)) d = g i.
Proof.
  intros Hi. rewrite (nth_indep _ d (g 0)) by (rewrite length_map, length_seq; lia).
  rewrite map_nth, seq_nth by lia. reflexivity.
Qed.

Lemma nrows_build (m n : nat) (f : nat -> nat -> F) : nrows (build m n f) = m.
Proof. unfold nrows, build. simpl. rewrite length_map, length_seq. reflexivity. Qed.

Lemma ncols_build (m n : nat) (f : nat -> nat -> F) : ncols (build m n f) = n.
Proof. reflexivity. Qed.

Lemma entry_build (m n : nat) (f : nat -> nat -> F) (i j : nat) :
  i < m -> j < n -> entry (build m n f) i j = f i j.
Proof.
  intros Hi Hj. unfold entry, build. simpl.
  rewrite nth_map_seq by exact Hi. apply nth_map_seq, Hj.
Qed.

Lemma build_ext (m n : nat) (f g : nat -> nat -> F) :
  (forall i j, i < m -> j < n -> f i j = g i j) -> build m n f = build m n g.
Proof.
  intros E. unfold build. f_equal.
  apply map_ext_in. intros i Hi. apply in_seq in Hi.
  apply map_ext_in. intros j Hj. apply in_seq in Hj.
  apply E; lia.
Qed.

Lemma build_shape (m n : nat) (f : nat -> nat -> F) : has_shape m n (build m n f).
Proof.
  split; [apply nrows_build |]. split; [reflexivity |].
  unfold wf_matrix, build. simpl. apply Forall_forall.
  intros r Hr. apply in_map_iff in Hr. destruct Hr as [i [<- _]].
  rewrite length_map, length_seq. reflexivity.
Qed.

Lemma build_entry (m n : nat) (A : matrix F) :
  has_shape m n A -> A = build m n (entry A).
Proof.
  destruct A as [nc rs]. unfold has_shape, nrows, wf_matrix, build. simpl.
  intros [Hm [Hn Hwf]]. subst nc. f_equal.
  apply (nth_ext _ _ [] []).
  - rewrite length_map, length_seq. exact Hm.
  - intros i Hi. rewrite nth_map_seq by lia.
    assert (Hr : length (nth i rs []) = n).
    { rewrite Forall_forall in Hwf. apply Hwf, nth_In, Hi. }
    apply (nth_ext _ _ f0 f0).
    + rewrite length_map, length_seq. exact Hr.
    + intros j Hj. rewrite nth_map_seq by lia. reflexivity.
Qed.

Lemma mat_ext (m n : nat) (A B : matrix F) :
  has_shape m n A -> has_shape m n B ->
  (forall i j, i < m -> j < n -> entry A i j = entry B i j) -> A = B.
Proof.
  intros HA HB E.
  rewrite (build_entry HA), (build_entry HB). apply build_ext, E.
Qed.

Lemma transpose_shape (m n : nat) (A : matrix F) :
  nrows A = m -> ncols A = n -> has_shape n m (transpose A).
Proof. intros <- <-. apply build_shape. Qed.

Lemma matmul_shape (m n : nat) (A B : matrix F) :
  nrows A = m -> ncols B = n -> has_shape m n (matmul A B).
Proof. intros <- <-. apply build_shape. Qed.

Lemma entry_transpose (A : matrix F) (i j : nat) :
  i < ncols A -> j < nrows A -> entry (transpose A) i j = entry A j i.
Proof.
  intros Hi Hj. unfold transpose. rewrite entry_build by assumption. reflexivity.
Qed.

Lemma entry_matmul (A B : matrix F) (i j : nat) :
  i < nrows A -> j < ncols B ->
  entry (matmul A B) i j = sum_n (ncols A) (fun k => entry A i k * entry B k j).
Proof.
  intros Hi Hj. unfold matmul. rewrite entry_build by assumption. reflexivity.
Qed.

Lemma transpose_involutive (m n : nat) (A : matrix F) :
  has_shape m n A -> transpose (transpose A) = A.
Proof.
  intros HA. pose proof HA as [Hm [Hn _]].
  apply (mat_ext (m := m) (n := n)); [| exact HA |].
  - apply transpose_shape.
    + unfold transpose. rewrite nrows_build. exact Hn.
    + unfold transpose at 1. rewrite ncols_build. exact Hm.
  - intros i j Hi Hj.
    rewrite entry_transpose.
    + apply entry_transpose; lia.
    + unfold transpose. rewrite ncols_build. lia.
    + unfold transpose. rewrite nrows_build. lia.
Qed.

Lemma matmul_assoc (A B C : matrix F) :
  ncols A = nrows B -> ncols B = nrows C ->
  matmul A (matmul B C) = matmul (matmul A B) C.
Proof.
  intros HAB HBC. unfold matmul at 1 3.
  rewrite (nrows_build _ _ _ : nrows (matmul A B) = nrows A).
  rewrite (ncols_build _ _ _ : ncols (matmul B C) = ncols C).
  rewrite (ncols_build _ _ _ : ncols (matmul A B) = ncols B).
  apply build_ext. intros i j Hi Hj.
  rewrite (sum_n_ext _
             (fun k => sum_n (ncols B)
                         (fun l => entry A i k * entry B k l * entry C l j))).
  - rewrite sum_n_swap. apply sum_n_ext. intros l Hl.
    rewrite entry_matmul by lia. rewrite sum_n_mul_r. reflexivity.
  - intros k Hk. rewrite entry_matmul by lia.
    rewrite sum_n_mul_l. apply sum_n_ext. intros l _. ring.
Qed.

Lemma nrows_matmul (A B : matrix F) : nrows (matmul A B) = nrows A.
Proof. apply nrows_build. Qed.

Lemma ncols_matmul (A B : matrix F) : ncols (matmul A B) = ncols B.
Proof. reflexivity. Qed.

Lemma nrows_transpose (A : matrix F) : nrows (transpose A) = ncols A.
Proof. apply nrows_build. Qed.

Lemma ncols_transpose (A : matrix F) : ncols (transpose A) = nrows A.
Proof. reflexivity. Qed.

Lemma nrows_msub (A B : matrix F) : nrows (msub A B) = nrows A.
Proof. apply nrows_build. Qed.

Lemma ncols_msub (A B : matrix F) : ncols (msub A B) = ncols A.
Proof. reflexivity. Qed.

Lemma nrows_eye (n : nat) : nrows (np_eye (F := F) n) = n.
Proof. apply nrows_build. Qed.

Lemma ncols_eye (n : nat) : ncols (np_eye (F := F) n) = n.
Proof. reflexivity. Qed.

Ltac dims :=
  rewrite ?nrows_matmul, ?ncols_matmul, ?nrows_transpose, ?ncols_transpose,
    ?nrows_msub, ?ncols_msub, ?nrows_eye, ?ncols_eye;
  try lia.

Lemma transpose_matmul (A B : matrix F) :
  ncols A = nrows B ->
  transpose (matmul A B) = matmul (transpose B) (transpose A).
Proof.
  intros HAB.
  apply (mat_ext (m := ncols B) (n := nrows A)).
  - apply transpose_shape; dims.
  - apply matmul_shape; dims.
  - intros i j Hi Hj.
    rewrite entry_transpose by dims.
    rewrite !entry_matmul by dims.
    rewrite ncols_transpose, HAB.
    apply sum_n_ext. intros k Hk.
    rewrite !entry_transpose by lia. ring.
Qed.

Lemma entry_eye (n i j : nat) :
  i < n -> j < n -> entry (np_eye n) i j = if Nat.eqb i j then f1 else f0.
Proof.
  intros Hi Hj. unfold np_eye. rewrite entry_build by assumption. reflexivity.
Qed.

Lemma transpose_eye (n : nat) : transpose (np_eye n) = np_eye n.
Proof.
  unfold transpose.
  rewrite (nrows_build _ _ _ : nrows (np_eye n) = n).
  rewrite (ncols_build _ _ _ : ncols (np_eye n) = n).
  unfold np_eye at 2. apply build_ext. intros i j Hi Hj.
  rewrite entry_eye by assumption. rewrite Nat.eqb_sym. reflexivity.
Qed.

Lemma matmul_eye_r (m n : nat) (A : matrix F) :
  has_shape m n A -> matmul A (np_eye n) = A.
Proof.
  intros HA. pose proof HA as [Hm [Hn _]].
  apply (mat_ext (m := m) (n := n)); [| exact HA |].
  - apply matmul_shape; [exact Hm | reflexivity].
  - intros i j Hi Hj.
    rewrite entry_matmul by dims. rewrite Hn.
    rewrite (sum_n_ext _
               (fun k => entry A i k * (if Nat.eqb k j then f1 else f0))).
    + apply sum_n_delta_r, Hj.
    + intros k Hk. rewrite entry_eye by assumption. reflexivity.
Qed.

Lemma matmul_eye_l (m n : nat) (A : matrix F) :
  has_shape m n A -> matmul (np_eye m) A = A.
Proof.
  intros HA. pose proof HA as [Hm [Hn _]].
  apply (mat_ext (m := m) (n := n)); [| exact HA |].
  - apply matmul_shape; [apply nrows_build | exact Hn].
  - intros i j Hi Hj.
    rewrite entry_matmul by dims.
    rewrite ncols_eye.
    rewrite (sum_n_ext _
               (fun k => (if Nat.eqb i k then f1 else f0) * entry A k j)).
    + apply (sum_n_delta_l (fun k => entry A k j)), Hi.
    + intros k Hk. rewrite entry_eye by assumption. reflexivity.
Qed.

Lemma entry_msub (A B : matrix F) (i j : nat) :
  i < nrows A -> j < ncols A ->
  entry (msub A B) i j = entry A i j - entry B i j.
Proof.
  intros Hi Hj. unfold msub. rewrite entry_build by assumption. reflexivity.
Qed.

Lemma matmul_msub_distr_l (A B C : matrix F) :
  ncols A = nrows B -> ncols B = ncols C ->
  matmul A (msub B C) = msub (matmul A B) (matmul A C).
Proof.
  intros HAB HBC.
  apply (mat_ext (m := nrows A) (n := ncols B)).
  - apply matmul_shape; dims.
  - unfold msub at 1. rewrite nrows_matmul, ncols_matmul. apply build_shape.
  - intros i j Hi Hj.
    rewrite entry_msub by dims.
    rewrite !entry_matmul by dims.
    rewrite <- sum_n_sub.
    apply sum_n_ext. intros k Hk.
    rewrite entry_msub by lia. ring.
Qed.

Lemma msub_self (A : matrix F) : msub A A = zeros2 (nrows A) (ncols A).
Proof.
  unfold msub, zeros2. apply build_ext. intros i j _ _. ring.
Qed.

Lemma np_dot_ok (A B : matrix F) :
  ncols A = nrows B -> np_dot A B = inr (matmul A B).
Proof.
  intros E. unfold np_dot. apply Nat.eqb_eq in E. rewrite E. reflexivity.
Qed.

Lemma np_dot_inv (A B C : matrix F) :
  np_dot A B = inr C -> ncols A = nrows B /\ C = matmul A B.
Proof.
  unfold np_dot. destruct (Nat.eqb (ncols A) (nrows B)) eqn:E; [| discriminate].
  apply Nat.eqb_eq in E. intros E'. injection E' as <-. auto.
Qed.

Lemma bidx_lt (d i : nat) : i < d -> bidx d i = i.
Proof.
  unfold bidx. destruct (Nat.eqb d 1) eqn:E; [| reflexivity].
  apply Nat.eqb_eq in E. lia.
Qed.

Lemma np_sub2_ok (A B : matrix F) :
  nrows A = nrows B -> ncols A = ncols B -> np_sub2 A B = inr (msub A B).
Proof.
  intros Er Ec. unfold np_sub2, broadcast_dim.
  rewrite <- Er, <- Ec, !Nat.eqb_refl. simpl. unfold ok. f_equal.
  unfold msub. apply build_ext. intros i j Hi Hj.
  rewrite !bidx_lt by assumption. reflexivity.
Qed.

End MatrixAlgebra.

Ltac shape_dims :=
  repeat first
    [ rewrite nrows_matmul | rewrite ncols_matmul | rewrite nrows_transpose
    | rewrite ncols_transpose | rewrite nrows_msub | rewrite ncols_msub
    | rewrite nrows_eye | rewrite ncols_eye ];
  try lia.

(** ** The null space filter *)

Section NullSpace.

Context {F : Type} `{ExactScalar F}.

Local Open Scope scalar_scope.
Local Open Scope result_scope.

Lemma fold_add_filtered_raise N q dq (l : list (Controller F)) (e : exn) :
  fold_left (add_filtered N q dq) l (inl e) = inl e.
Proof. induction l as [| c l IH]; [reflexivity | exact IH]. Qed.

Lemma null_loop_fold (s : OSC F) q dq (J M_inv Mx N : matrix F) :
  null_filter s J M_inv Mx = inr N ->
  forall (l : list (Controller F)) (u : vec F),
    null_loop s q dq J M_inv Mx u l = fold_left (add_filtered N q dq) l (ok u).
Proof.
  intros HN. induction l as [| c l IH]; intros u; [reflexivity |].
  simpl. unfold null_step. rewrite HN. simpl.
  destruct (np_dot_mv N (controller_generate c q dq)) as [e | a]; simpl.
  - symmetry. apply fold_add_filtered_raise.
  - destruct (np_iop fadd u a) as [e | u']; simpl.
    + symmetry. apply fold_add_filtered_raise.
    + apply IH.
Qed.

Lemma null_filter_inv (s : OSC F) (J M_inv Mx N : matrix F) (c n : nat) :
  has_shape c n J -> has_shape n n M_inv -> has_shape c c Mx ->
  IDENTITY_N_JOINTS s = np_eye n ->
  null_filter s J M_inv Mx = inr N ->
  N = msub (np_eye n)
        (matmul (transpose J)
           (transpose (matmul M_inv (matmul (transpose J) Mx)))).
Proof.
  intros [HJr [HJc _]] [HMr [HMc _]] [HXr [HXc _]] HI.
  unfold null_filter. rewrite HI.
  rewrite np_dot_ok by shape_dims. cbv beta iota delta [rbind].
  rewrite np_dot_ok by shape_dims. cbv beta iota delta [rbind].
  rewrite np_dot_ok by shape_dims. cbv beta iota delta [rbind].
  rewrite np_sub2_ok by shape_dims.
  intros E. injection E as <-. reflexivity.
Qed.

Lemma task_inertia_symmetric (J M_inv : matrix F) (c n : nat) :
  has_shape c n J -> has_shape n n M_inv ->
  transpose M_inv = M_inv ->
  transpose (matmul J (matmul M_inv (transpose J)))
  = matmul J (matmul M_inv (transpose J)).
Proof.
  intros HJ [HMr [HMc HMw]] Hsym. pose proof HJ as [HJr [HJc _]].
  rewrite transpose_matmul by shape_dims.
  rewrite transpose_matmul by shape_dims.
  rewrite (transpose_involutive HJ), Hsym.
  symmetry. apply matmul_assoc; shape_dims.
Qed.

Lemma projector_annihilates (J M_inv Mx : matrix F) (c n : nat) :
  has_shape c n J -> has_shape n n M_inv -> has_shape c c Mx ->
  transpose M_inv = M_inv ->
  matmul Mx (matmul J (matmul M_inv (transpose J))) = np_eye c ->
  matmul J
    (matmul M_inv
       (msub (np_eye n)
          (matmul (transpose J)
             (transpose (matmul M_inv (matmul (transpose J) Mx))))))
  = zeros2 c n.
Proof.
  intros HJ HM HX Hsym Hinv.
  pose proof HJ as [HJr [HJc _]].
  pose proof HM as [HMr [HMc _]].
  pose proof HX as [HXr [HXc _]].
  assert (HXt : matmul (matmul J (matmul M_inv (transpose J))) (transpose Mx)
                = np_eye c).
  { rewrite <- (task_inertia_symmetric HJ HM Hsym) at 1.
    rewrite <- transpose_matmul by shape_dims.
    rewrite Hinv. apply transpose_eye. }
  rewrite matmul_assoc by shape_dims.
  rewrite matmul_msub_distr_l by shape_dims.
  rewrite (matmul_eye_r (m := c) (n := n))
    by (apply matmul_shape; shape_dims).
  rewrite transpose_matmul by shape_dims.
  rewrite transpose_matmul by shape_dims.
  rewrite (transpose_involutive HJ), Hsym.
  rewrite (matmul_assoc (matmul J M_inv)) by shape_dims.
  rewrite <- (matmul_assoc J M_inv (transpose J)) by shape_dims.
  rewrite (matmul_assoc _ (matmul (transpose Mx) J) M_inv) by shape_dims.
  rewrite (matmul_assoc _ (transpose Mx) J) by shape_dims.
  rewrite HXt, (matmul_eye_l HJ).
  rewrite msub_self. shape_dims. rewrite HJr, HMc. reflexivity.
Qed.

End NullSpace.

Section NullSpaceFilter.

Context {F : Type} `{Scalar F}.

Local Open Scope scalar_scope.
Local Open Scope result_scope.

(** C3, as amended.  In any arithmetic, every secondary controller's
    torque is multiplied by the same filter [N = I - J^T Jbar^T], with
    [Jbar = M_inv J^T Mx], and the products are added to the torque one
    after the other.  In exact arithmetic, when the inertia matrix is
    symmetric and [Mx] is the inverse of [Mx_inv = J M_inv J^T], the filter
    satisfies [J M_inv N = 0]. *)
Theorem null_space_filter
    (s : OSC F) (q dq : vec F) (J M_inv Mx N : matrix F) :
  null_filter s J M_inv Mx = inr N ->
  (forall (u : vec F) (l : list (Controller F)),
     null_loop s q dq J M_inv Mx u l
     = fold_left (add_filtered N q dq) l (ok u)) /\
  (forall c n : nat,
     has_shape c n J -> has_shape n n M_inv -> has_shape c c Mx ->
     IDENTITY_N_JOINTS s = np_eye n ->
     N = msub (np_eye n)
           (matmul (transpose J)
              (transpose (matmul M_inv (matmul (transpose J) Mx))))) /\
  (ExactScalar F ->
   forall (c n : nat) (MJt Mx_inv : matrix F),
     has_shape c n J -> has_shape n n M_inv -> has_shape c c Mx ->
     IDENTITY_N_JOINTS s = np_eye n ->
     transpose M_inv = M_inv ->
     np_dot M_inv (transpose J) = inr MJt ->
     np_dot J MJt = inr Mx_inv ->
     exact_inverse c Mx Mx_inv ->
     exists MN, np_dot M_inv N = inr MN /\ np_dot J MN = inr (zeros2 c n)).
Proof.
  intros HN. split; [| split].
  - intros u l. apply null_loop_fold, HN.
  - intros c n HJ HM HX HI. exact (null_filter_inv _ HJ HM HX HI HN).
  - intros HE c n MJt Mx_inv HJ HM HX HI Hsym EMJt EMx_inv [Einv _].
    rewrite (null_filter_inv _ HJ HM HX HI HN).
    apply np_dot_inv in EMJt. destruct EMJt as [_ ->].
    apply np_dot_inv in EMx_inv. destruct EMx_inv as [_ ->].
    apply np_dot_inv in Einv. destruct Einv as [_ Einv].
    pose proof HJ as [HJr [HJc _]].
    pose proof HM as [HMr [HMc _]].
    exists (matmul M_inv
              (msub (np_eye n)
                 (matmul (transpose J)
                    (transpose (matmul M_inv (matmul (transpose J) Mx)))))).
    split.
    + apply np_dot_ok. shape_dims.
    + rewrite np_dot_ok by shape_dims. f_equal.
      apply projector_annihilates; auto.
Qed.

End NullSpaceFilter.

(** ** Deciding equality of arrays of exact scalars *)

Section ArrayEquality.

Context {F : Type} `{ExactScalar F}.

Lemma list_eqb_eq {A : Type} (eqb : A -> A -> bool) :
  (forall x y, eqb x y = true -> x = y) ->
  forall l1 l2, list_eqb eqb l1 l2 = true -> l1 = l2.
Proof.
  intros Heq. induction l1 as [| x l1 IH]; intros [| y l2] E;
    simpl in E; try discriminate; [reflexivity |].
  apply andb_prop in E. destruct E as [E1 E2].
  f_equal; [apply Heq, E1 | apply IH, E2].
Qed.

Lemma vec_eqb_eq (u v : vec F) : list_eqb feqb u v = true -> u = v.
Proof. apply list_eqb_eq. intros x y. apply feqb_eq. Qed.

Lemma matrix_eqb_eq (A B : matrix F) : matrix_eqb A B = true -> A = B.
Proof.
  destruct A as [n rs], B as [n' rs']. unfold matrix_eqb. simpl.
  intros E. apply andb_prop in E. destruct E as [E1 E2].
  apply Nat.eqb_eq in E1. subst n'. f_equal.
  revert E2. apply list_eqb_eq. exact vec_eqb_eq.
Qed.

End ArrayEquality.

Lemma has_shape_of_rows (m n : nat) (l : list (list Qc)) :
  length l = m -> length (hd [] l) = n ->
  forallb (fun r => Nat.eqb (length r) n) l = true ->
  has_shape m n (of_rows l).
Proof.
  intros Hm Hn Hw. split; [exact Hm |]. split; [exact Hn |].
  unfold wf_matrix. simpl. rewrite Hn. apply Forall_forall. intros r Hr.
  rewrite forallb_forall in Hw. apply Nat.eqb_eq, Hw, Hr.
Qed.

(** With the identity as inertia matrix, the filter of the first task
    dimension annihilates [J M_inv]. *)
Lemma null_space_filter_witness :
  let J := of_rows [[1; 0]]%Qc in
  let M_inv := of_rows [[1; 0]; [0; 1]]%Qc in
  let Mx := of_rows [[1]]%Qc in
  exists N MN,
    null_filter (x_only M_inv) J M_inv Mx = inr N /\
    np_dot M_inv N = inr MN /\ np_dot J MN = inr (zeros2 1 2).
Proof.
  intros J M_inv Mx.
  assert (HJ : has_shape 1 2 J) by (apply has_shape_of_rows; reflexivity).
  assert (HM : has_shape 2 2 M_inv) by (apply has_shape_of_rows; reflexivity).
  assert (HX : has_shape 1 1 Mx) by (apply has_shape_of_rows; reflexivity).
  assert (HI : exact_inverse 1 Mx (matmul J (matmul M_inv (transpose J)))).
  { split; rewrite np_dot_ok by reflexivity; f_equal;
      apply matrix_eqb_eq; vm_compute; reflexivity. }
  assert (Hsym : transpose M_inv = M_inv)
    by (apply matrix_eqb_eq; vm_compute; reflexivity).
  eexists.
  destruct (null_space_filter (x_only M_inv) [] [] J M_inv Mx eq_refl)
    as [_ [_ P]].
  destruct (P Qc_ExactScalar 1 2 _ _ HJ HM HX eq_refl Hsym eq_refl eq_refl HI)
    as [MN [E1 E2]].
  exists MN. split; [reflexivity |]. split; assumption.
Defined.

(** C3 as stated fails without the symmetry of the inertia matrix: with
    [J = [1 0]], [M_inv = [[1 1] [0 1]]] and [Mx = [1]], the inverse of
    [Mx_inv = J M_inv J^T = [1]], the filter is [N = [[0 0] [0 1]]] and
    [J M_inv N = [0 1]].  It also fails on binary64 by rounding: with
    [J = [0.6 0.8]], [M_inv = I] and [Mx = [1]], the computed [Mx_inv] is
    exactly [[1]], of which [Mx] is the inverse, and the computed
    [J M_inv N] is [[0 -2^-54]]. *)
Lemma null_space_filter_counterexample :
  (let J := of_rows [[1; 0]]%Qc in
   let M_inv := of_rows [[1; 1]; [0; 1]]%Qc in
   let Mx := of_rows [[1]]%Qc in
   has_shape 1 2 J /\ has_shape 2 2 M_inv /\ has_shape 1 1 Mx /\
   exact_inverse 1 Mx (matmul J (matmul M_inv (transpose J))) /\
   exists N,
     null_filter (x_only M_inv) J M_inv Mx = inr N /\
     ~ (exists MN, np_dot M_inv N = inr MN /\ np_dot J MN = inr (zeros2 1 2)))
  /\
  (let J := binary64_J in
   let M_inv := np_eye 2 in
   let Mx := of_rows [[1%float]] in
   let Mx_inv := of_rows [[1%float]] in
   has_shape 1 2 J /\ has_shape 2 2 M_inv /\ has_shape 1 1 Mx /\
   transpose M_inv = M_inv /\
   (exists MJt,
      np_dot M_inv (transpose J) = inr MJt /\ np_dot J MJt = inr Mx_inv) /\
   exact_inverse 1 Mx Mx_inv /\
   exists N MN P,
     null_filter binary64_x_only J M_inv Mx = inr N /\
     np_dot M_inv N = inr MN /\
     np_dot J MN = inr P /\
     rows P = [[0; - 0x1p-54]]%float /\
     matrix_eqb P (zeros2 1 2) = false).
Proof.
  split.
  - intros J M_inv Mx.
    split; [apply has_shape_of_rows; reflexivity |].
    split; [apply has_shape_of_rows; reflexivity |].
    split; [apply has_shape_of_rows; reflexivity |].
    split.
    { split; rewrite np_dot_ok by reflexivity; f_equal;
        apply matrix_eqb_eq; vm_compute; reflexivity. }
    eexists. split; [reflexivity |].
    intros [MN [E1 E2]].
    apply np_dot_inv in E1. destruct E1 as [_ ->].
    apply np_dot_inv in E2. destruct E2 as [_ E2].
    apply (f_equal (fun P => this (entry P 0 1))) in E2.
    vm_compute in E2. discriminate E2.
  - intros J M_inv Mx Mx_inv.
    split; [repeat split; repeat constructor |].
    split; [repeat split; repeat constructor |].
    split; [repeat split; repeat constructor |].
    split; [vm_compute; reflexivity |].
    split; [eexists; split; vm_compute; reflexivity |].
    split; [split; vm_compute; reflexivity |].
    do 3 eexists.
    split; [vm_compute; reflexivity |].
    split; [vm_compute; reflexivity |].
    split; [vm_compute; reflexivity |].
    split; vm_compute; reflexivity.
Qed.

(** ** The control law without velocity limiting *)

Section Unlimited.

Context {F : Type} `{Scalar F}.

Local Open Scope scalar_scope.

(** C5, as amended.  Without [vmax], the control law damps in joint
    space, with base torque [-kv M dq] and task force [-kp u_task], exactly
    when all six components of the target velocity are zero, whether their
    dimensions are controlled or not; otherwise the base torque is [0.0]
    and [kv (dx - target_vel[ctrlr_dof])] is subtracted from the task
    force. *)
Theorem unlimited_damping_choice
    (s : OSC F) (J M : matrix F) (dq target_vel u_task u_task' : vec F)
    (u : pyval F) :
  vmax s = None ->
  control_law s J M dq target_vel u_task = inr (u_task', u) ->
  (all_zero target_vel = true /\
   u_task' = map (fun x => x * - kp s) u_task /\
   exists Mdq,
     np_dot_mv M dq = inr Mdq /\
     u = NdArray (map (fun x => - kv s * x) Mdq))
  \/
  (all_zero target_vel = false /\
   u = PyFloat f0 /\
   exists dx tv a,
     np_dot_mv J dq = inr dx /\
     np_mask (ctrlr_dof s) target_vel = inr tv /\
     np_binop fsub dx tv = inr a /\
     np_iop fsub (map (fun x => x * - kp s) u_task)
       (map (fun x => kv s * x) a) = inr u_task').
Proof.
  intros Hv. unfold control_law. rewrite Hv. unfold unlimited.
  destruct (all_zero target_vel); intros E.
  - left. split; [reflexivity |].
    apply rbind_ok in E. destruct E as [Mdq [EM E]].
    injection E as <- <-. split; [reflexivity |].
    exists Mdq. auto.
  - right. split; [reflexivity |].
    apply rbind_ok in E. destruct E as [dx [Edx E]].
    apply rbind_ok in E. destruct E as [tv [Etv E]].
    apply rbind_ok in E. destruct E as [a [Ea E]].
    apply rbind_ok in E. destruct E as [ut [Eut E]].
    injection E as <- <-. split; [reflexivity |].
    exists dx, tv, a. auto.
Qed.

End Unlimited.

Lemma unlimited_damping_choice_witness :
  exists u_task' u,
    control_law position_only gantry_position_J (np_eye 6)
      [1; 0; 0; 0; 0; 0]%Qc (np_zeros 6) [1; 0; 0]%Qc = inr (u_task', u) /\
    (exists v, u = NdArray v).
Proof.
  destruct (control_law position_only gantry_position_J (np_eye 6)
              [1; 0; 0; 0; 0; 0]%Qc (np_zeros 6) [1; 0; 0]%Qc)
    as [e | [u_task' u]] eqn:E.
  - exfalso. vm_compute in E. discriminate E.
  - exists u_task', u. split; [reflexivity |].
    destruct (unlimited_damping_choice position_only gantry_position_J
                (np_eye 6) [1; 0; 0; 0; 0; 0]%Qc (np_zeros 6) [1; 0; 0]%Qc
                eq_refl E)
      as [[_ [_ [Mdq [_ ->]]]] | [Hz _]].
    + eexists. reflexivity.
    + exfalso. vm_compute in Hz. discriminate Hz.
Defined.

(** C5 as stated fails: with the position-only mask and the target
    velocity [0, 0, 0, 1, 0, 0], the target velocity is zero in every
    controlled dimension, yet the control law takes the task space branch:
    the base torque is [0.0], not [-kv M dq]. *)
Lemma unlimited_damping_choice_counterexample :
  let target_vel := [0; 0; 0; 1; 0; 0]%Qc in
  all_zero (select (ctrlr_dof position_only) target_vel) = true /\
  exists u_task',
    control_law position_only gantry_position_J (np_eye 6)
      [1; 0; 0; 0; 0; 0]%Qc target_vel [1; 0; 0]%Qc
    = inr (u_task', PyFloat 0%Qc).
Proof.
  split; [reflexivity |].
  eexists. vm_compute. reflexivity.
Qed.

(** ** The saturation ratios of the velocity-limited law, on floats *)

Section SaturationFloat.

Local Open Scope float_scope.

Lemma float_eqb_zero (u : float) :
  (u =? 0) = true -> exists sgn, Prim2SF u = S754_zero sgn.
Proof.
  rewrite eqb_spec. unfold SFeqb, SFcompare.
  change (Prim2SF 0) with (S754_zero false).
  destruct (Prim2SF u) as [sgn | sgn | | sgn m e];
    try discriminate; try (destruct sgn; discriminate).
  intros _. exists sgn. reflexivity.
Qed.

Lemma float_positive_finite (x : float) :
  (0 <? x) = true -> (x <? infinity) = true ->
  exists m e, Prim2SF x = S754_finite false m e.
Proof.
  rewrite !ltb_spec. unfold SFltb, SFcompare.
  change (Prim2SF 0) with (S754_zero false).
  change (Prim2SF infinity) with (S754_infinity false).
  destruct (Prim2SF x) as [sgn | sgn | | sgn m e]; try discriminate;
    destruct sgn; try discriminate.
  intros _ _. eauto.
Qed.

Lemma float_positive (x : float) :
  (0 <? x) = true ->
  Prim2SF x = S754_infinity false \/ exists m e, Prim2SF x = S754_finite false m e.
Proof.
  rewrite ltb_spec. unfold SFltb, SFcompare.
  change (Prim2SF 0) with (S754_zero false).
  destruct (Prim2SF x) as [sgn | sgn | | sgn m e]; try discriminate;
    destruct sgn; try discriminate; eauto.
Qed.

Lemma sat_divisor_of_zero (lamb u : float) :
  (u =? 0) = true -> (0 <? lamb) = true -> (lamb <? infinity) = true ->
  lamb * abs u = 0.
Proof.
  intros Hu Hl Hfin.
  destruct (float_eqb_zero Hu) as [sgn Eu].
  destruct (float_positive_finite Hl Hfin) as [m [e El]].
  apply Prim2SF_inj.
  rewrite mul_spec, abs_spec, Eu, El. reflexivity.
Qed.

Lemma div_by_zero_infinity (vmax : float) :
  (0 <? vmax) = true -> vmax / 0 = infinity.
Proof.
  intros Hv. apply Prim2SF_inj. rewrite div_spec.
  change (Prim2SF 0) with (S754_zero false).
  change (Prim2SF infinity) with (S754_infinity false).
  destruct (float_positive Hv) as [E | [m [e E]]]; rewrite E; reflexivity.
Qed.

(** C4, as amended.  The saturation ratios are the quotients
    [vmax / (lamb * |u_task_i|)], one for each controlled dimension,
    computed with no guard.  For a dimension whose error is exactly zero,
    with [vmax > 0] and a finite [lamb > 0], the divisor is exactly zero,
    the division is performed just the same, and its IEEE-754 result is
    [+inf]: the dimension does not bind ([sat_i < 1] is false). *)
Theorem saturation_of_zero_error
    (vmax lamb : float) (u_task : list float) (i : nat) (u : float) :
  nth_error u_task i = Some u ->
  (u =? 0) = true ->
  (0 <? vmax) = true -> (0 <? lamb) = true -> (lamb <? infinity) = true ->
  saturation vmax lamb u_task = map (fun x => vmax / (lamb * abs x)) u_task /\
  nth_error (sat_divisors lamb u_task) i = Some 0 /\
  nth_error (saturation vmax lamb u_task) i = Some infinity /\
  fltb infinity f1 = false.
Proof.
  intros Hi Hu Hv Hl Hfin.
  unfold saturation, sat_divisors. rewrite map_map.
  split; [reflexivity |].
  rewrite !nth_error_map, Hi. simpl.
  rewrite (sat_divisor_of_zero Hu Hl Hfin), (div_by_zero_infinity Hv).
  repeat split; reflexivity.
Qed.

End SaturationFloat.

Lemma saturation_of_zero_error_witness :
  saturation 0.5%float 2%float [0; 1]%float = [infinity; 0.25]%float /\
  nth_error (sat_divisors 2%float [0; 1]%float) 0 = Some 0%float.
Proof.
  destruct (@saturation_of_zero_error 0.5%float 2%float [0; 1]%float 0
              0%float eq_refl eq_refl eq_refl eq_refl eq_refl)
    as [_ [D _]].
  split; [reflexivity | exact D].
Defined.

(** C4 as stated fails: there is no guard, and for the task error
    [0.0, 1.0] with [lamb = 2] the first ratio is computed by dividing
    [vmax] by a divisor that is exactly zero. *)
Lemma saturation_counterexample :
  sat_divisors 2%float [0; 1]%float = [0; 2]%float /\
  saturation 0.5%float 2%float [0; 1]%float
  = [(0.5 / 0)%float; (0.5 / 2)%float] /\
  feqb (nth 0 (sat_divisors 2%float [0; 1]%float) 1%float) f0 = true.
Proof. repeat split; reflexivity. Qed.

(** ** The integrated error term and the mask *)

Section IntegralShape.

Context {F : Type} `{Scalar F}.

Lemma np_binop_same_length (op : F -> F -> F) (u v : vec F) :
  length u = length v ->
  exists r, np_binop op u v = inr r /\ length r = length u.
Proof.
  intros E. unfold np_binop, broadcast_dim.
  apply Nat.eqb_eq in E. rewrite E. simpl.
  eexists. split; [reflexivity |].
  rewrite length_map, length_seq. reflexivity.
Qed.

Lemma np_iop_same_length (op : F -> F -> F) (u v : vec F) :
  length u = length v ->
  exists r, np_iop op u v = inr r /\ length r = length u.
Proof.
  intros E. unfold np_iop, broadcast_dim.
  apply Nat.eqb_eq in E. rewrite E. simpl. rewrite Nat.eqb_refl.
  eexists. split; [reflexivity |].
  rewrite length_map, length_seq. reflexivity.
Qed.

Lemma np_iop_three (op : F -> F -> F) (u v : vec F) :
  length v = 3 -> length u <> 3 -> np_iop op u v = inl ValueError.
Proof.
  intros Hv Hu. unfold np_iop, broadcast_dim. rewrite Hv.
  destruct (Nat.eqb (length u) 3) eqn:E3;
    [apply Nat.eqb_eq in E3; contradiction |].
  destruct (Nat.eqb (length u) 1) eqn:E1; simpl.
  - apply Nat.eqb_eq in E1. rewrite E1. reflexivity.
  - reflexivity.
Qed.

(** Whenever the task force does not have exactly three components, the
    integrated error term updates the integrated error and then fails. *)
Lemma integral_term_needs_three (target xyz u_task : vec F) (w : world F) :
  feqb (ki (self w)) f0 = false ->
  length target = 6 -> length xyz = 3 ->
  length (integrated_error (self w)) = 3 ->
  length u_task <> 3 ->
  exists w' d,
    integral_term target (Some xyz) u_task w = (inl ValueError, w') /\
    np_binop fsub (firstn 3 target) xyz = inr d /\
    np_iop fadd (integrated_error (self w)) d
    = inr (integrated_error (self w')).
Proof.
  intros Hki Ht Hx He Hu.
  assert (Hf : length (firstn 3 target) = 3) by (rewrite length_firstn; lia).
  unfold integral_term, bind, get. rewrite Hki. simpl negb. cbv iota.
  destruct (np_binop_same_length fsub (firstn 3 target) xyz) as [d [Ed Ld]];
    [lia |].
  destruct (np_iop_same_length fadd (integrated_error (self w)) d)
    as [e [Ee Le]]; [lia |].
  unfold lift. rewrite Ed, Ee. unfold set_integrated_error.
  rewrite np_iop_three by (rewrite ?length_map; lia).
  eexists _, d. split; [reflexivity |]. split; [reflexivity |]. exact Ee.
Qed.

End IntegralShape.

(** C6 fails on the code.  The gantry stands at x = 1, y = 2, z = 3 with
    the orientation of the target; the target is at x = 1, y = 5, z = 3.

    - With all six dimensions controlled and [ki = 1], the position error
      is added to the integrated error and the subtraction of the length-3
      integral from the length-6 task force then raises ValueError.
    - With the mask [x, alpha, beta] and [ki = 1], the call returns, and
      the integral of the y error has been subtracted from the alpha
      component: the torque is -3 on the fourth joint, although the
      orientation error is zero and y is not controlled.
    - With the same mask and [ki = 0] the torque is zero and the
      integrated error stays zero. *)
Theorem integral_term_ignores_mask :
  let q := [1; Q2Qc 2; Q2Qc 3; 0; 0; 0]%Qc in
  let target := [1; Q2Qc 5; Q2Qc 3; 0; 0; 0]%Qc in
  let call dof ki :=
    outcome (generate q (np_zeros 6) target None "EE" None
               {| self := gantry_controller dof ki; calls := [] |}) in
  call [true; true; true; true; true; true] 1%Qc
    = (inl ValueError, [0; 3; 0]%Q) /\
  call [true; false; false; true; true; false] 1%Qc
    = (inr [0; 0; 0; -3; 0; 0]%Q, [0; 3; 0]%Q) /\
  call [true; false; false; true; true; false] 0%Qc
    = (inr [0; 0; 0; 0; 0; 0]%Q, [0; 0; 0]%Q).
Proof. repeat split; vm_compute; reflexivity. Qed.

(** ** The constructor *)

Section Constructor.

Context {F : Type} `{Scalar F}.

Local Open Scope scalar_scope.

(** C8, as amended.  The constructor validates no gain.  With a [kv] that
    is given and is not zero, negative or not, it returns the controller
    with that [kv] and [lamb = kp / kv]; with a [kv] that is given and is
    zero, the division raises ZeroDivisionError; and no other exception
    is ever raised. *)
Theorem init_validates_nothing
    (robot : robot_config F) (kp0 : F) (ko0 kv0 : option F) (ki0 : F)
    (vmax0 : option F) (dof : option (list bool))
    (null : option (list (Controller F))) (g C : bool) :
  (forall k, kv0 = Some k -> feqb k f0 = false ->
     exists s out,
       __init__ robot kp0 ko0 kv0 ki0 vmax0 dof null g C = inr (s, out) /\
       kv s = k /\ lamb s = kp0 / k /\ kp s = kp0 /\ ki s = ki0) /\
  (forall k, kv0 = Some k -> feqb k f0 = true ->
     __init__ robot kp0 ko0 kv0 ki0 vmax0 dof null g C = inl ZeroDivisionError) /\
  (forall e,
     __init__ robot kp0 ko0 kv0 ki0 vmax0 dof null g C = inl e ->
     e = ZeroDivisionError).
Proof.
  split; [| split].
  - intros k -> Hk. unfold __init__, py_truediv. rewrite Hk. simpl.
    eexists _, _. repeat split; reflexivity.
  - intros k -> Hk. unfold __init__, py_truediv. rewrite Hk. reflexivity.
  - intros e. unfold __init__, py_truediv.
    destruct kv0 as [k |]; simpl.
    + destruct (feqb k f0); simpl; intros E; [| discriminate E].
      injection E as <-. reflexivity.
    + intros E. discriminate E.
Qed.

End Constructor.

(** C8 as stated fails: constructed with [kv = -1], the controller is
    returned, with [lamb = -1]. *)
Lemma init_counterexample :
  exists s out,
    __init__ gantry 1%Qc None (Some (Q2Qc (-1))) 0%Qc None None None true false
      = inr (s, out) /\
    fltb (kv s) f0 = true /\ this (lamb s) = (-1)%Q.
Proof. eexists _, _. repeat split; vm_compute; reflexivity. Qed.

Lemma init_validates_nothing_witness :
  exists s out,
    __init__ gantry 1%Qc None (Some (Q2Qc 2)) 0%Qc None None None true false
      = inr (s, out) /\
    kv s = Q2Qc 2 /\ lamb s = (1 / Q2Qc 2)%Qc.
Proof.
  assert (Hk : feqb (Q2Qc 2) f0 = false) by (vm_compute; reflexivity).
  destruct (proj1 (init_validates_nothing gantry 1%Qc None (Some (Q2Qc 2))
                     0%Qc None None None true false)
              (Q2Qc 2) eq_refl Hk)
    as [s [out [E [Ekv [Elamb _]]]]].
  exists s, out. auto.
Defined.


(** * Further properties of generate() *)

(** ** What a call changes in the object *)

Section ObjectState.

Context {F : Type} `{Scalar F} `{Linalg F} `{Transformations F}.

Lemma preserves_bind {X A B} (f : OSC F -> X)
    (c : Py (world F) A) (k : A -> Py (world F) B) :
  preserves f c -> (forall a, preserves f (k a)) -> preserves f (bind c k).
Proof.
  intros Hc Hk w r w'. unfold bind.
  destruct (c w) as [[e | a] w1] eqn:E; intros E'.
  - injection E' as _ <-. eapply Hc; eauto.
  - apply Hk in E'. apply Hc in E. congruence.
Qed.

Lemma keeps_self_preserves {X A} (f : OSC F -> X) (c : Py (world F) A) :
  keeps_self c -> preserves f c.
Proof. intros Hc w r w' E. apply Hc in E. rewrite E. reflexivity. Qed.

Lemma set_integrated_error_preserves {X} (f : OSC F -> X) (v : vec F) :
  (forall s e, f (with_integrated_error s e) = f s) ->
  preserves f (set_integrated_error v).
Proof.
  intros Hf w r w' E. unfold set_integrated_error in E.
  injection E as _ <-. apply Hf.
Qed.

Lemma set_training_signal_preserves {X} (f : OSC F -> X) (v : vec F) :
  (forall s e, f (with_training_signal s e) = f s) ->
  preserves f (set_training_signal v).
Proof.
  intros Hf w r w' E. unfold set_training_signal in E.
  injection E as _ <-. apply Hf.
Qed.

Lemma integral_term_preserves {X} (f : OSC F -> X) (target : vec F) xyz u :
  (forall s e, f (with_integrated_error s e) = f s) ->
  preserves f (integral_term target xyz u).
Proof.
  intros Hf. unfold integral_term.
  apply preserves_bind.
  - apply keeps_self_preserves, pure_keeps_self, get_pure.
  - intros w0. destruct (negb (feqb (ki (self w0)) f0)).
    + destruct xyz as [xyz |].
      * apply preserves_bind;
          [apply keeps_self_preserves, pure_keeps_self, lift_pure |].
        intros d. apply preserves_bind;
          [apply keeps_self_preserves, pure_keeps_self, lift_pure |].
        intros e. apply preserves_bind;
          [apply set_integrated_error_preserves, Hf |].
        intros _. apply keeps_self_preserves, pure_keeps_self, lift_pure.
      * apply keeps_self_preserves, pure_keeps_self, throw_pure.
    + apply keeps_self_preserves, pure_keeps_self, ret_pure.
Qed.

Lemma joint_torque_preserves {X} (f : OSC F -> X) (s : OSC F)
    (q dq : vec F) (J Mx : matrix F) (u : pyval F) (u_task : vec F) :
  (forall s e, f (with_training_signal s e) = f s) ->
  preserves f (joint_torque s q dq J Mx u u_task).
Proof.
  intros Hf. unfold joint_torque.
  apply preserves_bind;
    [apply keeps_self_preserves, pure_keeps_self, lift_pure |].
  intros u1. apply preserves_bind.
  - destruct (use_C s).
    + apply preserves_bind; [apply keeps_self_preserves, query_keeps_self |].
      intros _. apply keeps_self_preserves, pure_keeps_self, lift_pure.
    + apply keeps_self_preserves, pure_keeps_self, ret_pure.
  - intros u2. apply preserves_bind;
      [apply set_training_signal_preserves, Hf |].
    intros _. destruct (use_g s).
    + apply preserves_bind; [apply keeps_self_preserves, query_keeps_self |].
      intros _. apply keeps_self_preserves, pure_keeps_self, lift_pure.
    + apply keeps_self_preserves, pure_keeps_self, ret_pure.
Qed.

(* Lines 215-248 of generate(), after the integrated error term. *)
Lemma torque_tail_preserves {X} (f : OSC F -> X)
    (q dq : vec F) (J M_inv Mx : matrix F) (u : pyval F) (u_task : vec F) :
  (forall s e, f (with_training_signal s e) = f s) ->
  preserves f
    (bind get (fun w =>
       bind (joint_torque (self w) q dq J Mx u u_task) (fun u' =>
         lift (null_space (self w) q dq J M_inv Mx u')))).
Proof.
  intros Hf. apply preserves_bind.
  - apply keeps_self_preserves, pure_keeps_self, get_pure.
  - intros w0. apply preserves_bind; [apply joint_torque_preserves, Hf |].
    intros u'. apply keeps_self_preserves, pure_keeps_self, lift_pure.
Qed.

Lemma generate_preserves {X} (f : OSC F -> X)
    (q dq target : vec F) (target_vel : option (vec F))
    (ref_frame : string) (xyz_offset : option (vec F)) :
  (forall s e, f (with_integrated_error s e) = f s) ->
  (forall s e, f (with_training_signal s e) = f s) ->
  preserves f (generate q dq target target_vel ref_frame xyz_offset).
Proof.
  intros Hi Ht. unfold generate.
  apply preserves_bind;
    [apply keeps_self_preserves, task_force_keeps_self |].
  intros [[[[[J M_inv] Mx] xyz] u_task] u].
  apply preserves_bind; [apply integral_term_preserves, Hi |].
  intros u_task'. apply torque_tail_preserves, Ht.
Qed.

(** X1.  Whatever its outcome, a call of generate() leaves every attribute
    of the controller as the constructor set it, but for the integrated
    error and the training signal: the gains, the mask, the robot model and
    the secondary controllers are never written. *)
Theorem generate_keeps_config
    (q dq target : vec F) (target_vel : option (vec F))
    (ref_frame : string) (xyz_offset : option (vec F))
    (w w' : world F) (r : result (vec F)) :
  generate q dq target target_vel ref_frame xyz_offset w = (r, w') ->
  config (self w') = config (self w).
Proof.
  apply (generate_preserves config); intros s e; reflexivity.
Qed.

Lemma integral_term_skipped (target : vec F) xyz (u : vec F) (w : world F) :
  feqb (ki (self w)) f0 = true ->
  integral_term target xyz u w = (inr u, w).
Proof.
  intros Hki. unfold integral_term, bind, get. rewrite Hki. reflexivity.
Qed.

(** X2.  With [ki == 0] a call of generate() leaves the integrated error
    as it is, whether it returns a torque or raises. *)
Theorem generate_without_integral_gain
    (q dq target : vec F) (target_vel : option (vec F))
    (ref_frame : string) (xyz_offset : option (vec F))
    (w w' : world F) (r : result (vec F)) :
  feqb (ki (self w)) f0 = true ->
  generate q dq target target_vel ref_frame xyz_offset w = (r, w') ->
  integrated_error (self w') = integrated_error (self w).
Proof.
  intros Hki. unfold generate. unfold bind at 1.
  destruct (task_force q dq target target_vel ref_frame xyz_offset w)
    as [[e | [[[[[J M_inv] Mx] xyz] u_task] u]] w1] eqn:E;
    pose proof (task_force_keeps_self _ _ _ _ _ _ _ E) as Hs.
  - intros E'. injection E' as _ <-. rewrite Hs. reflexivity.
  - unfold bind at 1.
    rewrite integral_term_skipped by (rewrite Hs; exact Hki).
    intros E'.
    apply (torque_tail_preserves (@integrated_error F)) in E';
      [| intros s e; reflexivity].
    rewrite E', Hs. reflexivity.
Qed.

End ObjectState.

Section IntegralAndTraining.

Context {F : Type} `{Scalar F} `{Linalg F} `{Transformations F}.

Lemma position_error_xyz (s : OSC F) ref_frame (q x target u : vec F)
    (w w' : world F) xyz u' :
  position_error s ref_frame q x target u w = (inr (xyz, u'), w') ->
  xyz = if Nat.ltb 0 (count_true (firstn 3 (ctrlr_dof s)))
        then Some (robot_Tx (self_robot_config s) ref_frame q x)
        else None.
Proof.
  unfold position_error.
  destruct (Nat.ltb 0 (count_true (firstn 3 (ctrlr_dof s)))).
  - intros E. apply bind_ok in E. destruct E as [[] [w1 [_ E]]].
    apply bind_ok in E. destruct E as [u1 [w2 [_ E]]].
    unfold ret in E. injection E as <- _ _. reflexivity.
  - unfold ret. intros E. injection E as <- _ _. reflexivity.
Qed.

Lemma task_force_xyz (q dq target : vec F) target_vel ref_frame xyz_offset
    (w w' : world F) J M_inv Mx xyz u_task u :
  task_force q dq target target_vel ref_frame xyz_offset w
    = (inr (J, M_inv, Mx, xyz, u_task, u), w') ->
  xyz = if Nat.ltb 0 (count_true (firstn 3 (ctrlr_dof (self w))))
        then Some (robot_Tx (self_robot_config (self w)) ref_frame q
                     match xyz_offset with
                     | None => ZEROS_THREE (self w)
                     | Some x => x
                     end)
        else None.
Proof.
  intros E. unfold task_force in E.
  apply bind_ok in E. destruct E as [w0 [w1 [E0 E]]].
  unfold get in E0. injection E0 as <- <-.
  unfold task_force_of in E.
  apply bind_ok in E. destruct E as [[] [w1 [_ E]]].
  apply bind_ok in E. destruct E as [tv [w2 [_ E]]].
  apply bind_ok in E. destruct E as [J0 [w3 [_ E]]].
  apply bind_ok in E. destruct E as [[[M0 Mi0] Mx0] [w4 [_ E]]].
  apply bind_ok in E. destruct E as [[xyz0 u0] [w5 [Ete E]]].
  apply bind_ok in E. destruct E as [[u1 u2] [w6 [_ E]]].
  unfold ret in E. injection E as _ _ _ <- _ _.
  unfold task_error in Ete.
  apply bind_ok in Ete. destruct Ete as [[xyz1 a] [w7 [EP Ete]]].
  apply position_error_xyz in EP. subst xyz1.
  apply bind_ok in Ete. destruct Ete as [a' [w8 [_ Ete]]].
  apply bind_ok in Ete. destruct Ete as [a2 [w9 [_ Ete]]].
  unfold ret in Ete. injection Ete as <- _ _. reflexivity.
Qed.

Lemma integral_term_ok (target : vec F) xyz (u u' : vec F) (w w' : world F) :
  feqb (ki (self w)) f0 = false ->
  integral_term target xyz u w = (inr u', w') ->
  exists xyz0 d,
    xyz = Some xyz0 /\
    np_binop fsub (firstn 3 target) xyz0 = inr d /\
    np_iop fadd (integrated_error (self w)) d
    = inr (integrated_error (self w')) /\
    np_iop fsub u (map (fun x => fmul (ki (self w)) x)
                     (integrated_error (self w'))) = inr u'.
Proof.
  intros Hki. unfold integral_term. unfold bind at 1. unfold get.
  rewrite Hki. simpl negb. cbv iota.
  destruct xyz as [xyz0 |]; [| unfold throw; discriminate].
  intros E.
  apply bind_ok in E. destruct E as [d [w1 [Ed E]]].
  apply lift_ok in Ed. destruct Ed as [Ed ->].
  apply bind_ok in E. destruct E as [e [w2 [Ee E]]].
  apply lift_ok in Ee. destruct Ee as [Ee ->].
  apply bind_ok in E. destruct E as [[] [w3 [Es E]]].
  unfold set_integrated_error in Es. injection Es as <-.
  apply lift_ok in E. destruct E as [E ->].
  exists xyz0, d. simpl. auto.
Qed.

(** X3.  With [ki != 0], a call of generate() that returns a torque has
    added [target[:3] - xyz] to the integrated error exactly once, where
    [xyz] is the position the robot model gives for [ref_frame] and the
    offset. *)
Theorem generate_accumulates_position_error
    (q dq target : vec F) (target_vel : option (vec F))
    (ref_frame : string) (xyz_offset : option (vec F))
    (w w' : world F) (v : vec F) :
  feqb (ki (self w)) f0 = false ->
  generate q dq target target_vel ref_frame xyz_offset w = (inr v, w') ->
  exists d,
    np_binop fsub (firstn 3 target)
      (robot_Tx (self_robot_config (self w)) ref_frame q
         match xyz_offset with
         | None => ZEROS_THREE (self w)
         | Some x => x
         end) = inr d /\
    np_iop fadd (integrated_error (self w)) d
    = inr (integrated_error (self w')).
Proof.
  intros Hki E. unfold generate in E.
  apply bind_ok in E.
  destruct E as [[[[[[J M_inv] Mx] xyz] u_task] u] [w1 [Etf E]]].
  pose proof (task_force_keeps_self _ _ _ _ _ _ _ Etf) as Hs.
  apply task_force_xyz in Etf.
  apply bind_ok in E. destruct E as [u_task' [w2 [Ei E]]].
  apply integral_term_ok in Ei; [| rewrite Hs; exact Hki].
  destruct Ei as [xyz0 [d [Hx [Ed [Ee _]]]]].
  apply (torque_tail_preserves (@integrated_error F)) in E;
    [| intros s e; reflexivity].
  rewrite Hx in Etf.
  destruct (Nat.ltb 0 (count_true (firstn 3 (ctrlr_dof (self w)))));
    [| discriminate Etf].
  injection Etf as ->.
  exists d. rewrite E. rewrite Hs in Ee. auto.
Qed.

Lemma joint_torque_training_signal (s : OSC F) (q dq : vec F)
    (J Mx : matrix F) (u : pyval F) (u_task v : vec F) (w w' : world F) :
  joint_torque s q dq J Mx u u_task w = (inr v, w') ->
  exists ts,
    training_signal (self w') = Some ts /\
    if use_g s
    then np_iop fsub ts (robot_g (self_robot_config s) q) = inr v
    else v = ts.
Proof.
  unfold joint_torque. intros E.
  apply bind_ok in E. destruct E as [u1 [w1 [_ E]]].
  apply bind_ok in E. destruct E as [u2 [w2 [_ E]]].
  apply bind_ok in E. destruct E as [[] [w3 [Es E]]].
  unfold set_training_signal in Es. injection Es as <-.
  exists u2. destruct (use_g s).
  - apply bind_ok in E. destruct E as [[] [w4 [Eq E]]].
    unfold query in Eq. injection Eq as <-.
    apply lift_ok in E. destruct E as [E ->]. simpl. auto.
  - unfold ret in E. injection E as <- <-. simpl. auto.
Qed.

(** X4.  When generate() returns, the training signal it has stored is
    the torque before gravity compensation and before the secondary
    controllers: with gravity compensation the torque of the primary task
    is the training signal minus [g(q)], without it the training signal
    itself, and with no secondary controllers this is the torque
    returned. *)
Theorem generate_training_signal
    (q dq target : vec F) (target_vel : option (vec F))
    (ref_frame : string) (xyz_offset : option (vec F))
    (w w' : world F) (v : vec F) :
  generate q dq target target_vel ref_frame xyz_offset w = (inr v, w') ->
  exists ts u,
    training_signal (self w') = Some ts /\
    (if use_g (self w)
     then np_iop fsub ts (robot_g (self_robot_config (self w)) q) = inr u
     else u = ts) /\
    (null_controllers (self w) = None -> v = u).
Proof.
  intros E. unfold generate in E.
  apply bind_ok in E.
  destruct E as [[[[[[J M_inv] Mx] xyz] u_task] u] [w1 [Etf E]]].
  pose proof (task_force_keeps_self _ _ _ _ _ _ _ Etf) as Hs.
  apply bind_ok in E. destruct E as [u_task' [w2 [Ei E]]].
  apply (integral_term_preserves config) in Ei; [| intros s e; reflexivity].
  rewrite Hs in Ei.
  apply bind_ok in E. destruct E as [w0 [w3 [Eg E]]].
  unfold get in Eg. injection Eg as <- <-.
  apply bind_ok in E. destruct E as [u' [w3 [Ej E]]].
  apply lift_ok in E. destruct E as [En ->].
  apply joint_torque_training_signal in Ej. destruct Ej as [ts [Ets Eu]].
  pose proof (f_equal (@use_g F) Ei) as Hg. simpl in Hg.
  pose proof (f_equal (@self_robot_config F) Ei) as Hr. simpl in Hr.
  pose proof (f_equal (@null_controllers F) Ei) as Hn. simpl in Hn.
  rewrite Hg, Hr in Eu.
  exists ts, u'. split; [exact Ets |]. split; [exact Eu |].
  intros Hnone. unfold null_space in En. rewrite Hn, Hnone in En.
  injection En as <-. reflexivity.
Qed.

End IntegralAndTraining.

(** ** The shape of the torque *)

Section TorqueShape.

Context {F : Type} `{Scalar F} `{Linalg F} `{Transformations F}.

Lemma np_iop_length (op : F -> F -> F) (u v r : vec F) :
  np_iop op u v = inr r -> length r = length u.
Proof.
  unfold np_iop. intros E.
  apply rbind_ok in E. destruct E as [n [_ E]].
  destruct (Nat.eqb n (length u)) eqn:En; [| discriminate].
  apply Nat.eqb_eq in En. injection E as <-.
  rewrite length_map, length_seq. exact En.
Qed.

Lemma np_dot_mv_length (A : matrix F) (v r : vec F) :
  np_dot_mv A v = inr r -> length r = nrows A.
Proof.
  unfold np_dot_mv. destruct (Nat.eqb (ncols A) (length v)); [| discriminate].
  intros E. injection E as <-. rewrite length_map, length_seq. reflexivity.
Qed.

Lemma py_iadd_length (u : pyval F) (b r : vec F) :
  py_iadd u b = inr r ->
  length r = match u with PyFloat _ => length b | NdArray m => length m end.
Proof.
  destruct u as [x | m]; simpl.
  - intros E. injection E as <-. apply length_map.
  - apply np_iop_length.
Qed.

Lemma control_law_base (s : OSC F) (J M : matrix F)
    (dq target_vel u_task u_task' : vec F) (u : pyval F) :
  control_law s J M dq target_vel u_task = inr (u_task', u) ->
  match u with PyFloat _ => True | NdArray m => length m = nrows M end.
Proof.
  unfold control_law. destruct (vmax s) as [vm |].
  - unfold velocity_limited. intros E.
    repeat (apply rbind_ok in E; destruct E as [? [_ E]]).
    injection E as _ <-. exact I.
  - unfold unlimited. destruct (all_zero target_vel); intros E.
    + apply rbind_ok in E. destruct E as [Mdq [EM E]].
      injection E as _ <-. rewrite length_map.
      apply np_dot_mv_length in EM. exact EM.
    + repeat (apply rbind_ok in E; destruct E as [? [_ E]]).
      injection E as _ <-. exact I.
Qed.

Lemma null_loop_length (s : OSC F) (q dq : vec F) (J M_inv Mx : matrix F)
    (l : list (Controller F)) :
  forall u v, null_loop s q dq J M_inv Mx u l = inr v -> length v = length u.
Proof.
  induction l as [| c l IH]; intros u v E; simpl in E.
  - injection E as <-. reflexivity.
  - apply rbind_ok in E. destruct E as [u1 [E1 E]].
    apply IH in E. rewrite E.
    unfold null_step in E1.
    apply rbind_ok in E1. destruct E1 as [nf [_ E1]].
    apply rbind_ok in E1. destruct E1 as [a [_ E1]].
    apply np_iop_length in E1. exact E1.
Qed.

Lemma null_space_length (s : OSC F) (q dq : vec F) (J M_inv Mx : matrix F)
    (u v : vec F) :
  null_space s q dq J M_inv Mx u = inr v -> length v = length u.
Proof.
  unfold null_space. destruct (null_controllers s) as [l |].
  - apply null_loop_length.
  - intros E. injection E as <-. reflexivity.
Qed.

Lemma joint_torque_length (s : OSC F) (q dq : vec F) (J Mx : matrix F)
    (u : pyval F) (u_task v : vec F) (w w' : world F) :
  joint_torque s q dq J Mx u u_task w = (inr v, w') ->
  length v = match u with PyFloat _ => ncols J | NdArray m => length m end.
Proof.
  unfold joint_torque. intros E.
  apply bind_ok in E. destruct E as [u1 [w1 [E1 E]]].
  apply lift_ok in E1. destruct E1 as [E1 _].
  apply rbind_ok in E1. destruct E1 as [a [_ E1]].
  apply rbind_ok in E1. destruct E1 as [b [Eb E1]].
  apply py_iadd_length in E1. apply np_dot_mv_length in Eb.
  assert (L1 : length u1
               = match u with PyFloat _ => ncols J | NdArray m => length m end).
  { rewrite E1. destruct u; [| reflexivity]. rewrite Eb.
    unfold nrows, transpose, build. simpl.
    rewrite length_map, length_seq. reflexivity. }
  rewrite <- L1. clear L1 E1 Eb.
  apply bind_ok in E. destruct E as [u2 [w2 [E2 E]]].
  assert (L2 : length u2 = length u1).
  { destruct (use_C s).
    - apply bind_ok in E2. destruct E2 as [[] [w3 [_ E2]]].
      apply lift_ok in E2. destruct E2 as [E2 _].
      apply rbind_ok in E2. destruct E2 as [c [_ E2]].
      apply np_iop_length in E2. exact E2.
    - unfold ret in E2. injection E2 as <- _. reflexivity. }
  rewrite <- L2.
  apply bind_ok in E. destruct E as [[] [w3 [_ E]]].
  destruct (use_g s).
  - apply bind_ok in E. destruct E as [[] [w4 [_ E]]].
    apply lift_ok in E. destruct E as [E _].
    apply np_iop_length in E. exact E.
  - unfold ret in E. injection E as <- _. reflexivity.
Qed.

Lemma task_force_shapes (q dq target : vec F) target_vel ref_frame xyz_offset
    (w w' : world F) J M_inv Mx xyz u_task u :
  task_force q dq target target_vel ref_frame xyz_offset w
    = (inr (J, M_inv, Mx, xyz, u_task, u), w') ->
  let rc := self_robot_config (self w) in
  let x := match xyz_offset with
           | None => ZEROS_THREE (self w)
           | Some x => x
           end in
  ncols J = ncols (robot_J rc ref_frame q x) /\
  nrows J = count_true (ctrlr_dof (self w)) /\
  match u with
  | PyFloat _ => True
  | NdArray m => length m = nrows (robot_M rc q)
  end.
Proof.
  intros E rc x. unfold task_force in E.
  apply bind_ok in E. destruct E as [w0 [w1 [E0 E]]].
  unfold get in E0. injection E0 as <- <-.
  unfold task_force_of in E. fold rc x in E.
  apply bind_ok in E. destruct E as [[] [w1 [_ E]]].
  apply bind_ok in E. destruct E as [tv [w2 [_ E]]].
  apply bind_ok in E. destruct E as [J0 [w3 [EJ E]]].
  apply bind_ok in E. destruct E as [[[M0 Mi0] Mx0] [w4 [EM E]]].
  apply bind_ok in E. destruct E as [[xyz0 u0] [w5 [ET E]]].
  apply bind_ok in E. destruct E as [[u1 u2] [w6 [EC E]]].
  unfold ret in E. injection E as <- _ _ _ <- <- _.
  apply lift_ok in EC. destruct EC as [EC _].
  apply control_law_base in EC.
  (* the Jacobian *)
  unfold jacobian in EJ.
  apply bind_ok in EJ. destruct EJ as [[] [w7 [_ EJ]]].
  apply lift_ok in EJ. destruct EJ as [EJ _].
  unfold np_mask_rows in EJ. fold rc in EJ.
  destruct (Nat.eqb (length (ctrlr_dof (self w)))
              (nrows (robot_J rc ref_frame q x))) eqn:El; [| discriminate].
  apply Nat.eqb_eq in El. injection EJ as <-.
  (* the inertia matrix *)
  unfold inertia in EM.
  apply bind_ok in EM. destruct EM as [[] [w8 [_ EM]]].
  apply lift_ok in EM. destruct EM as [EM _].
  repeat (apply rbind_ok in EM; destruct EM as [? [_ EM]]).
  injection EM as <- _ _.
  split; [reflexivity |]. split.
  - unfold nrows. simpl. apply select_length. exact El.
  - exact EC.
Qed.

(** X5.  When the inertia matrix has as many rows as the Jacobian has
    columns, the torque that generate() returns has that many components:
    one for each joint. *)
Theorem generate_torque_length
    (q dq target : vec F) (target_vel : option (vec F))
    (ref_frame : string) (xyz_offset : option (vec F))
    (w w' : world F) (v : vec F) :
  let rc := self_robot_config (self w) in
  let x := match xyz_offset with
           | None => ZEROS_THREE (self w)
           | Some x => x
           end in
  nrows (robot_M rc q) = ncols (robot_J rc ref_frame q x) ->
  generate q dq target target_vel ref_frame xyz_offset w = (inr v, w') ->
  length v = ncols (robot_J rc ref_frame q x).
Proof.
  intros rc x HM E. unfold generate in E.
  apply bind_ok in E.
  destruct E as [[[[[[J M_inv] Mx] xyz] u_task] u] [w1 [Etf E]]].
  apply task_force_shapes in Etf. destruct Etf as [HJ [_ Hu]].
  apply bind_ok in E. destruct E as [u_task' [w2 [_ E]]].
  apply bind_ok in E. destruct E as [w0 [w3 [_ E]]].
  apply bind_ok in E. destruct E as [u' [w4 [Ej E]]].
  apply lift_ok in E. destruct E as [En _].
  apply null_space_length in En. apply joint_torque_length in Ej.
  rewrite En, Ej. fold rc x in HJ, Hu.
  destruct u as [z | m]; [exact HJ | congruence].
Qed.

End TorqueShape.

(** ** The mask *)

Section Mask.

Context {F : Type} `{Scalar F} `{Linalg F} `{Transformations F}.

Local Open Scope scalar_scope.

Lemma argmin_from_bound (l : vec F) :
  forall best ibest i, ibest < i -> argmin_from best ibest i l < i + length l.
Proof.
  induction l as [| x l IH]; intros best ibest i Hi; simpl.
  - lia.
  - destruct (isnan best); [lia |].
    destruct (isnan x || fltb x best).
    + specialize (IH x i (S i)). lia.
    + specialize (IH best ibest (S i)). lia.
Qed.

Lemma np_argmin_bound (l : vec F) : l <> [] -> np_argmin l < length l.
Proof.
  destruct l as [| x l]; [congruence |]. intros _. simpl.
  pose proof (argmin_from_bound l x (ibest := 0) (i := 1)). lia.
Qed.

Lemma set_nth_length (i : nat) (x : F) (l : vec F) :
  length (set_nth i x l) = length l.
Proof.
  revert i. induction l as [| y l IH]; intros [| i]; simpl; auto.
Qed.

Lemma task_error_length (s : OSC F) ref_frame (q x target : vec F)
    (w w' : world F) xyz u :
  task_error s ref_frame q x target w = (inr (xyz, u), w') ->
  length u = count_true (ctrlr_dof s).
Proof.
  unfold task_error. intros E.
  apply bind_ok in E. destruct E as [[xyz1 a] [w1 [_ E]]].
  apply bind_ok in E. destruct E as [a' [w2 [_ E]]].
  apply bind_ok in E. destruct E as [a2 [w3 [EK E]]].
  unfold ret in E. injection E as _ <- _.
  apply lift_ok in EK. destruct EK as [EK _].
  unfold np_mask in EK.
  destruct (Nat.eqb (length (ctrlr_dof s)) (length a')) eqn:Ea;
    [| discriminate].
  apply Nat.eqb_eq in Ea. injection EK as <-.
  apply select_length. exact Ea.
Qed.

(** X6.  For a controller made by the constructor, the scaling vector of
    the velocity limiting always exists: the task error has [n_ctrlr_dof]
    components, the index of the least saturation ratio is one of them, so
    that [scale[index] = 1] never raises IndexError, and [scale] has as
    many components as the task error. *)
Theorem velocity_scale_in_range
    (robot : robot_config F) (kp0 : F) (ko0 kv0 : option F) (ki0 : F)
    (vmax0 : option F) (dof : option (list bool))
    (null : option (list (Controller F))) (g C : bool)
    (s : OSC F) (out : list printed)
    (ref_frame : string) (q x target : vec F) (w w' : world F)
    (xyz : option (vec F)) (u_task : vec F) (vm : F) :
  __init__ robot kp0 ko0 kv0 ki0 vmax0 dof null g C = inr (s, out) ->
  task_error s ref_frame q x target w = (inr (xyz, u_task), w') ->
  length u_task = n_ctrlr_dof s /\
  exists scale,
    velocity_scale s vm (saturation vm (lamb s) u_task) u_task = inr scale /\
    length scale = length u_task.
Proof.
  intros Ei Et.
  assert (Hn : n_ctrlr_dof s = count_true (ctrlr_dof s)).
  { unfold __init__ in Ei.
    apply rbind_ok in Ei. destruct Ei as [l [_ Ei]].
    injection Ei as <- _. reflexivity. }
  apply task_error_length in Et.
  split; [congruence |].
  unfold velocity_scale.
  destruct (existsb (fun y => fltb y f1) (saturation vm (lamb s) u_task))
    eqn:Es.
  - unfold np_setitem. rewrite length_map. unfold np_ones.
    rewrite repeat_length.
    assert (Hlt : np_argmin (saturation vm (lamb s) u_task) < n_ctrlr_dof s).
    { rewrite Hn, <- Et.
      replace (length u_task)
        with (length (saturation vm (lamb s) u_task))
        by (unfold saturation, sat_divisors; rewrite !length_map; reflexivity).
      apply np_argmin_bound. intros Hnil. rewrite Hnil in Es. discriminate Es. }
    apply Nat.ltb_lt in Hlt. rewrite Hlt.
    eexists. split; [reflexivity |].
    rewrite set_nth_length, length_map, repeat_length. congruence.
  - eexists. split; [reflexivity |].
    unfold np_ones. rewrite repeat_length. congruence.
Qed.

(** X7.  A mask that has not as many flags as the Jacobian has rows is
    accepted by the constructor and rejected by generate(): on a target of
    length 6, the call asks for the Jacobian and fails with IndexError, the
    object unchanged. *)
Theorem generate_mask_length
    (q dq target : vec F) (ref_frame : string)
    (xyz_offset : option (vec F)) (w : world F) :
  let rc := self_robot_config (self w) in
  let x := match xyz_offset with
           | None => ZEROS_THREE (self w)
           | Some x => x
           end in
  length target = 6 ->
  length (ctrlr_dof (self w)) <> nrows (robot_J rc ref_frame q x) ->
  generate q dq target None ref_frame xyz_offset w
  = (inl IndexError,
     {| self := self w; calls := calls w ++ [Call_J ref_frame q x] |}).
Proof.
  intros rc x Ht Hm.
  apply Nat.eqb_eq in Ht. apply Nat.eqb_neq in Hm.
  unfold generate, task_force, task_force_of, bind, get, assert, ret,
    jacobian, query, lift, np_mask_rows.
  rewrite Ht. simpl. fold rc x. rewrite Hm. reflexivity.
Qed.

(** X8.  With [kp == 0] and an orientation flag set, the orientation step
    raises ZeroDivisionError, after it has asked for the rotation matrix,
    and generate() never returns a torque. *)
Theorem generate_zero_kp_orientation
    (q dq target : vec F) (target_vel : option (vec F))
    (ref_frame : string) (xyz_offset : option (vec F)) (w : world F) :
  feqb (kp (self w)) f0 = true ->
  Nat.ltb 0 (count_true (skipn 3 (ctrlr_dof (self w)))) = true ->
  (forall (u : vec F) (w1 : world F),
     orientation (self w) q target u w1
     = (inl ZeroDivisionError,
        {| self := self w1; calls := calls w1 ++ [Call_R "EE" q] |})) /\
  (forall v w',
     generate q dq target target_vel ref_frame xyz_offset w <> (inr v, w')).
Proof.
  intros Hkp Hm.
  assert (Ho : forall (u : vec F) (w1 : world F),
             orientation (self w) q target u w1
             = (inl ZeroDivisionError,
                {| self := self w1; calls := calls w1 ++ [Call_R "EE" q] |})).
  { intros u w1. unfold orientation. rewrite Hm.
    unfold bind, query, lift, orientation_error, py_truediv.
    rewrite Hkp. reflexivity. }
  split; [exact Ho |].
  intros v w' E. unfold generate in E.
  apply bind_ok in E. destruct E as [r [w1 [E _]]].
  unfold task_force in E.
  apply bind_ok in E. destruct E as [w0 [w2 [E0 E]]].
  unfold get in E0. injection E0 as <- <-.
  unfold task_force_of in E.
  apply bind_ok in E. destruct E as [[] [w2 [_ E]]].
  apply bind_ok in E. destruct E as [tv [w3 [_ E]]].
  apply bind_ok in E. destruct E as [J0 [w4 [_ E]]].
  apply bind_ok in E. destruct E as [[[M0 Mi0] Mx0] [w5 [_ E]]].
  apply bind_ok in E. destruct E as [[xyz0 u0] [w6 [ET _]]].
  unfold task_error in ET.
  apply bind_ok in ET. destruct ET as [[xyz1 a] [w7 [_ ET]]].
  apply bind_ok in ET. destruct ET as [a' [w8 [EO _]]].
  rewrite Ho in EO. discriminate EO.
Qed.

End Mask.

(** ** The order of the secondary controllers *)

Section NullOrder.

Context {F : Type} `{ExactScalar F}.

Local Open Scope scalar_scope.
Local Open Scope result_scope.

Add Ring scalar_ring_order : scalar_ring.

(* u op= v succeeds exactly when v has the length of u or the length 1 *)
Lemma np_iop_spec (op : F -> F -> F) (u v : vec F) :
  np_iop op u v
  = if Nat.eqb (length u) (length v) || Nat.eqb (length v) 1
    then inr (map (fun i => op (nth i u f0) (nth (bidx (length v) i) v f0))
                (seq 0 (length u)))
    else inl ValueError.
Proof.
  unfold np_iop, broadcast_dim.
  destruct (Nat.eqb (length u) (length v)) eqn:E1; simpl.
  - rewrite Nat.eqb_refl. reflexivity.
  - destruct (Nat.eqb (length u) 1) eqn:E2; simpl.
    + rewrite Nat.eqb_sym, E1.
      apply Nat.eqb_eq in E2. rewrite E2 in E1. rewrite Nat.eqb_sym in E1.
      rewrite E1. reflexivity.
    + destruct (Nat.eqb (length v) 1); simpl;
        [rewrite Nat.eqb_refl |]; reflexivity.
Qed.

Lemma np_dot_mv_error (A : matrix F) (v : vec F) (e : exn) :
  np_dot_mv A v = inl e -> e = ValueError.
Proof.
  unfold np_dot_mv. destruct (Nat.eqb (ncols A) (length v)); [discriminate |].
  intros E. injection E as <-. reflexivity.
Qed.

Lemma iadd_twice_comm (u a b : vec F) :
  (let? u1 := np_iop fadd u a in np_iop fadd u1 b)
  = (let? u1 := np_iop fadd u b in np_iop fadd u1 a).
Proof.
  rewrite (np_iop_spec fadd u a), (np_iop_spec fadd u b).
  destruct (Nat.eqb (length u) (length a) || Nat.eqb (length a) 1) eqn:Ea;
    destruct (Nat.eqb (length u) (length b) || Nat.eqb (length b) 1) eqn:Eb;
    simpl; rewrite ?np_iop_spec, ?length_map, ?length_seq, ?Ea, ?Eb;
    try reflexivity.
  f_equal. apply map_ext_in. intros i Hi. apply in_seq in Hi.
  rewrite !nth_map_seq by lia. ring.
Qed.

Lemma rbind_assoc {A B C} (c : result A) (f : A -> result B) (g : B -> result C) :
  rbind (rbind c f) g = rbind c (fun x => rbind (f x) g).
Proof. destruct c; reflexivity. Qed.

Lemma null_step_comm (s : OSC F) (q dq : vec F) (J M_inv Mx : matrix F)
    (u : vec F) (x y : Controller F) :
  (let? u1 := null_step s q dq J M_inv Mx u x in
   null_step s q dq J M_inv Mx u1 y)
  = (let? u1 := null_step s q dq J M_inv Mx u y in
     null_step s q dq J M_inv Mx u1 x).
Proof.
  unfold null_step.
  destruct (null_filter s J M_inv Mx) as [e | N]; [reflexivity |]. simpl.
  destruct (np_dot_mv N (controller_generate x q dq)) as [ex | a] eqn:Ex;
    destruct (np_dot_mv N (controller_generate y q dq)) as [ey | b] eqn:Ey;
    simpl.
  - apply np_dot_mv_error in Ex, Ey. subst. reflexivity.
  - apply np_dot_mv_error in Ex. subst ex.
    rewrite np_iop_spec.
    destruct (_ || _); reflexivity.
  - apply np_dot_mv_error in Ey. subst ey.
    rewrite np_iop_spec.
    destruct (_ || _); reflexivity.
  - transitivity (let? u1 := np_iop fadd u a in np_iop fadd u1 b).
    + destruct (np_iop fadd u a); reflexivity.
    + rewrite iadd_twice_comm.
      destruct (np_iop fadd u b); reflexivity.
Qed.

(** X9.  In exact arithmetic the order in which the secondary controllers
    are registered does not matter: for two lists of the same controllers
    the loop over them gives the same torque, or fails alike. *)
Theorem null_loop_permutation
    (s : OSC F) (q dq : vec F) (J M_inv Mx : matrix F)
    (l l' : list (Controller F)) :
  Permutation l l' ->
  forall u : vec F,
    null_loop s q dq J M_inv Mx u l = null_loop s q dq J M_inv Mx u l'.
Proof.
  induction 1 as [| x l l' _ IH | x y l | l l' l'' _ IH1 _ IH2]; intros u.
  - reflexivity.
  - simpl. destruct (null_step s q dq J M_inv Mx u x); simpl;
      [reflexivity | apply IH].
  - simpl. rewrite <- !rbind_assoc. rewrite (null_step_comm s q dq J M_inv Mx u y x).
    reflexivity.
  - rewrite IH1. apply IH2.
Qed.

End NullOrder.

(** ** The controller at its target *)

Section AtTarget.

Context {F : Type} `{ExactScalar F} `{Linalg F} `{Transformations F}.

Local Open Scope scalar_scope.

Add Ring scalar_ring_target : scalar_ring.

Lemma is_zero_nth (v : vec F) (i : nat) : is_zero_vec v -> nth i v f0 = f0.
Proof.
  intros Hv. destruct (Nat.lt_ge_cases i (length v)) as [Hi | Hi].
  - unfold is_zero_vec in Hv. rewrite Forall_forall in Hv.
    apply Hv, nth_In, Hi.
  - apply nth_overflow, Hi.
Qed.

Lemma is_zero_map_seq (n : nat) (g : nat -> F) :
  (forall i, i < n -> g i = f0) -> is_zero_vec (map g (seq 0 n)).
Proof.
  intros Hg. apply Forall_forall. intros y Hy.
  apply in_map_iff in Hy. destruct Hy as [i [<- Hi]].
  apply in_seq in Hi. apply Hg. lia.
Qed.

Lemma is_zero_map (g : F -> F) (v : vec F) :
  g f0 = f0 -> is_zero_vec v -> is_zero_vec (map g v).
Proof.
  intros Hg Hv. apply Forall_forall. intros y Hy.
  apply in_map_iff in Hy. destruct Hy as [x [<- Hx]].
  unfold is_zero_vec in Hv. rewrite Forall_forall in Hv.
  rewrite (Hv x Hx). exact Hg.
Qed.

Lemma is_zero_zeros (n : nat) : is_zero_vec (np_zeros (F := F) n).
Proof.
  apply Forall_forall. intros y Hy. apply repeat_spec in Hy. exact Hy.
Qed.

Lemma is_zero_select (mask : list bool) (v : vec F) :
  is_zero_vec v -> is_zero_vec (select mask v).
Proof.
  unfold is_zero_vec. revert v.
  induction mask as [| b mask IH]; intros [| x v] Hv; simpl;
    try apply Forall_nil.
  apply Forall_cons_iff in Hv. destruct Hv as [Hx Hv].
  destruct b; [apply Forall_cons; [exact Hx |] |]; apply IH, Hv.
Qed.

Lemma sum_n_zero_terms (n : nat) (g : nat -> F) :
  (forall k, g k = f0) -> sum_n n g = f0.
Proof.
  intros Hg. rewrite (sum_n_ext _ (fun _ => f0)) by (intros; apply Hg).
  apply sum_n_zero.
Qed.

Lemma np_dot_mv_zero (A : matrix F) (v r : vec F) :
  is_zero_vec v -> np_dot_mv A v = inr r -> is_zero_vec r.
Proof.
  intros Hv. unfold np_dot_mv.
  destruct (Nat.eqb (ncols A) (length v)); [| discriminate].
  intros E. injection E as <-.
  apply is_zero_map_seq. intros i _.
  apply sum_n_zero_terms. intros k. rewrite (is_zero_nth k Hv). ring.
Qed.

Lemma np_iop_zero (op : F -> F -> F) (u v r : vec F) :
  op f0 f0 = f0 ->
  is_zero_vec u -> is_zero_vec v -> np_iop op u v = inr r -> is_zero_vec r.
Proof.
  intros Hop Hu Hv. rewrite np_iop_spec.
  destruct (_ || _); [| discriminate].
  intros E. injection E as <-.
  apply is_zero_map_seq. intros i _.
  rewrite (is_zero_nth i Hu), (is_zero_nth _ Hv). exact Hop.
Qed.

Lemma np_binop_sub_self (a d : vec F) :
  np_binop fsub a a = inr d -> is_zero_vec d.
Proof.
  unfold np_binop, broadcast_dim. rewrite Nat.eqb_refl. simpl.
  intros E. injection E as <-.
  apply is_zero_map_seq. intros i _. ring.
Qed.

Lemma set_first3_zero (a d r : vec F) :
  is_zero_vec a -> is_zero_vec d -> set_first3 a d = inr r -> is_zero_vec r.
Proof.
  intros Ha Hd. unfold set_first3. intros E.
  apply rbind_ok in E. destruct E as [n [_ E]].
  destruct (Nat.eqb n 3); [| discriminate].
  injection E as <-.
  repeat (apply Forall_cons; [apply is_zero_nth, Hd |]).
  change (Forall (fun x : F => x = f0) (skipn 3 a)).
  unfold is_zero_vec in Ha. rewrite <- (firstn_skipn 3 a) in Ha.
  apply Forall_app in Ha. apply Ha.
Qed.

Lemma task_error_at_target (s : OSC F) ref_frame (q x target : vec F)
    (w w' : world F) xyz u :
  Nat.ltb 0 (count_true (skipn 3 (ctrlr_dof s))) = false ->
  robot_Tx (self_robot_config s) ref_frame q x = firstn 3 target ->
  task_error s ref_frame q x target w = (inr (xyz, u), w') ->
  is_zero_vec u.
Proof.
  intros Hm Hx E. unfold task_error in E.
  apply bind_ok in E. destruct E as [[xyz1 a] [w1 [EP E]]].
  apply bind_ok in E. destruct E as [a' [w2 [EO E]]].
  apply bind_ok in E. destruct E as [a2 [w3 [EK E]]].
  unfold ret in E. injection E as _ <- _.
  apply lift_ok in EK. destruct EK as [EK _].
  unfold np_mask in EK.
  destruct (Nat.eqb (length (ctrlr_dof s)) (length a')); [| discriminate].
  injection EK as <-. apply is_zero_select.
  unfold orientation in EO. rewrite Hm in EO.
  unfold ret in EO. injection EO as <- _.
  unfold position_error in EP.
  destruct (Nat.ltb 0 (count_true (firstn 3 (ctrlr_dof s)))).
  - apply bind_ok in EP. destruct EP as [[] [w4 [_ EP]]].
    apply bind_ok in EP. destruct EP as [u1 [w5 [E1 EP]]].
    unfold ret in EP. injection EP as _ <- _.
    apply lift_ok in E1. destruct E1 as [E1 _].
    apply rbind_ok in E1. destruct E1 as [d [Ed E1]].
    rewrite Hx in Ed. apply np_binop_sub_self in Ed.
    revert E1. apply set_first3_zero; [apply is_zero_zeros | exact Ed].
  - unfold ret in EP. injection EP as _ <- _. apply is_zero_zeros.
Qed.

Lemma all_zero_of_is_zero (v : vec F) : is_zero_vec v -> all_zero v = true.
Proof.
  intros Hv. unfold all_zero. apply forallb_forall. intros y Hy.
  unfold is_zero_vec in Hv. rewrite Forall_forall in Hv.
  apply feqb_eq, Hv, Hy.
Qed.

Lemma control_law_at_target (s : OSC F) (J M : matrix F)
    (dq target_vel u_task u_task' : vec F) (u : pyval F) :
  vmax s = None ->
  is_zero_vec target_vel -> is_zero_vec dq -> is_zero_vec u_task ->
  control_law s J M dq target_vel u_task = inr (u_task', u) ->
  is_zero_vec u_task' /\ exists m, u = NdArray m /\ is_zero_vec m.
Proof.
  intros Hv Htv Hdq Hu. unfold control_law. rewrite Hv. unfold unlimited.
  rewrite (all_zero_of_is_zero Htv). intros E.
  apply rbind_ok in E. destruct E as [Mdq [EM E]].
  injection E as <- <-. split.
  - apply is_zero_map; [ring | exact Hu].
  - eexists. split; [reflexivity |].
    apply is_zero_map; [ring |].
    revert EM. apply np_dot_mv_zero, Hdq.
Qed.

Lemma joint_torque_at_target (s : OSC F) (q dq : vec F) (J Mx : matrix F)
    (m u_task v : vec F) (w w' : world F) :
  is_zero_vec m -> is_zero_vec u_task -> is_zero_vec dq ->
  joint_torque s q dq J Mx (NdArray m) u_task w = (inr v, w') ->
  exists ts,
    is_zero_vec ts /\
    if use_g s
    then np_iop fsub ts (robot_g (self_robot_config s) q) = inr v
    else v = ts.
Proof.
  intros Hm Hu Hdq. unfold joint_torque. intros E.
  apply bind_ok in E. destruct E as [u1 [w1 [E1 E]]].
  apply lift_ok in E1. destruct E1 as [E1 _].
  apply rbind_ok in E1. destruct E1 as [a [Ea E1]].
  apply rbind_ok in E1. destruct E1 as [b [Eb E1]].
  apply np_dot_mv_zero in Ea; [| exact Hu].
  apply np_dot_mv_zero in Eb; [| exact Ea].
  simpl in E1. apply np_iop_zero in E1; [| ring | exact Hm | exact Eb].
  apply bind_ok in E. destruct E as [u2 [w2 [E2 E]]].
  assert (Hu2 : is_zero_vec u2).
  { destruct (use_C s).
    - apply bind_ok in E2. destruct E2 as [[] [w3 [_ E2]]].
      apply lift_ok in E2. destruct E2 as [E2 _].
      apply rbind_ok in E2. destruct E2 as [c [Ec E2]].
      apply np_dot_mv_zero in Ec; [| exact Hdq].
      revert E2. apply np_iop_zero; [ring | exact E1 | exact Ec].
    - unfold ret in E2. injection E2 as <- _. exact E1. }
  apply bind_ok in E. destruct E as [[] [w3 [_ E]]].
  exists u2. split; [exact Hu2 |].
  destruct (use_g s).
  - apply bind_ok in E. destruct E as [[] [w4 [_ E]]].
    apply lift_ok in E. destruct E as [E _]. exact E.
  - unfold ret in E. injection E as <- _. reflexivity.
Qed.

Lemma zero_minus (ts g v : vec F) :
  is_zero_vec ts -> np_iop fsub ts g = inr v -> length g = length v ->
  v = map fopp g.
Proof.
  intros Hts E Hl. pose proof (np_iop_length _ _ _ E) as Lv.
  rewrite np_iop_spec in E. destruct (_ || _); [| discriminate].
  injection E as <-.
  rewrite length_map, length_seq in Hl.
  apply (nth_ext _ _ f0 (fopp f0)).
  - rewrite !length_map, length_seq. congruence.
  - intros i Hi. rewrite length_map, length_seq in Hi.
    rewrite nth_map_seq by exact Hi.
    rewrite (map_nth fopp g f0 i).
    rewrite (is_zero_nth i Hts), bidx_lt by lia. ring.
Qed.

(** X10.  A controller without velocity limiting, integral gain,
    orientation control and secondary controllers, asked to hold the
    position the end effector has, at rest and with no target velocity,
    returns the gravity compensation alone: the zero torque without
    gravity compensation, and [-g(q)] with it. *)
Theorem generate_at_target
    (q dq target : vec F) (ref_frame : string)
    (xyz_offset : option (vec F)) (w w' : world F) (v : vec F) :
  let rc := self_robot_config (self w) in
  let x := match xyz_offset with
           | None => ZEROS_THREE (self w)
           | Some x => x
           end in
  vmax (self w) = None ->
  feqb (ki (self w)) f0 = true ->
  null_controllers (self w) = None ->
  Nat.ltb 0 (count_true (skipn 3 (ctrlr_dof (self w)))) = false ->
  is_zero_vec (ZEROS_SIX (self w)) ->
  is_zero_vec dq ->
  robot_Tx rc ref_frame q x = firstn 3 target ->
  generate q dq target None ref_frame xyz_offset w = (inr v, w') ->
  (use_g (self w) = false -> is_zero_vec v) /\
  (use_g (self w) = true ->
   length (robot_g rc q) = length v -> v = map fopp (robot_g rc q)).
Proof.
  intros rc x Hv Hki Hnull Hm Hz Hdq Hx E.
  unfold generate in E.
  apply bind_ok in E.
  destruct E as [[[[[[J M_inv] Mx] xyz] u_task] u] [w1 [Etf E]]].
  pose proof (task_force_keeps_self _ _ _ _ _ _ _ Etf) as Hs.
  (* the task force is zero *)
  assert (Hzero : is_zero_vec u_task /\ exists m, u = NdArray m /\ is_zero_vec m).
  { unfold task_force in Etf.
    apply bind_ok in Etf. destruct Etf as [w0 [w2 [E0 Etf]]].
    unfold get in E0. injection E0 as <- <-.
    unfold task_force_of in Etf. fold rc x in Etf.
    apply bind_ok in Etf. destruct Etf as [[] [w2 [_ Etf]]].
    apply bind_ok in Etf. destruct Etf as [tv [w3 [Etv Etf]]].
    unfold ret in Etv. injection Etv as <- _.
    apply bind_ok in Etf. destruct Etf as [J0 [w4 [_ Etf]]].
    apply bind_ok in Etf. destruct Etf as [[[M0 Mi0] Mx0] [w5 [_ Etf]]].
    apply bind_ok in Etf. destruct Etf as [[xyz0 u0] [w6 [ET Etf]]].
    apply bind_ok in Etf. destruct Etf as [[u1 u2] [w7 [EC Etf]]].
    unfold ret in Etf. injection Etf as _ _ _ _ <- <- _.
    apply lift_ok in EC. destruct EC as [EC _].
    apply task_error_at_target in ET; [| exact Hm | exact Hx].
    revert EC. apply control_law_at_target; assumption. }
  destruct Hzero as [Hut [m [-> Hmz]]].
  apply bind_ok in E. destruct E as [ut [w2 [Ei E]]].
  rewrite integral_term_skipped in Ei by (rewrite Hs; exact Hki).
  injection Ei as <- <-.
  apply bind_ok in E. destruct E as [w0 [w2 [E0 E]]].
  unfold get in E0. injection E0 as <- <-.
  apply bind_ok in E. destruct E as [u' [w3 [Ej E]]].
  apply lift_ok in E. destruct E as [En _].
  unfold null_space in En. rewrite Hs, Hnull in En. injection En as <-.
  apply joint_torque_at_target in Ej; try assumption.
  destruct Ej as [ts [Hts Eg]]. rewrite Hs in Eg. fold rc in Eg.
  split; intros Hg; rewrite Hg in Eg.
  - rewrite Eg. exact Hts.
  - intros Hl. revert Eg Hl. apply zero_minus, Hts.
Qed.

End AtTarget.

(** ** Runs of the further properties on the gantry *)

Lemma generate_keeps_config_witness :
  let w := {| self := gantry_controller [true; true; true; false; false; false] 1%Qc;
              calls := [] |} in
  config (self (snd (generate gantry_q (np_zeros 6) gantry_target None "EE" None w)))
  = config (self w).
Proof.
  intros w.
  eapply (generate_keeps_config gantry_q (np_zeros 6) gantry_target None "EE" None w).
  apply surjective_pairing.
Defined.

Lemma generate_without_integral_gain_witness :
  let w := {| self := position_only; calls := [] |} in
  feqb (ki (self w)) f0 = true /\
  integrated_error
    (self (snd (generate gantry_q (np_zeros 6) gantry_target None "EE" None w)))
  = integrated_error (self w).
Proof.
  intros w.
  assert (Hki : feqb (ki (self w)) f0 = true) by (vm_compute; reflexivity).
  split; [exact Hki |].
  eapply (generate_without_integral_gain
            gantry_q (np_zeros 6) gantry_target None "EE" None w Hki).
  apply surjective_pairing.
Defined.

Lemma generate_accumulates_position_error_witness :
  let w := {| self := gantry_controller [true; true; true; false; false; false] 1%Qc;
              calls := [] |} in
  exists v w' d,
    generate gantry_q (np_zeros 6) gantry_target None "EE" None w = (inr v, w') /\
    np_binop fsub (firstn 3 gantry_target)
      (robot_Tx gantry "EE" gantry_q (np_zeros 3)) = inr d /\
    np_iop fadd (integrated_error (self w)) d = inr (integrated_error (self w')).
Proof.
  intros w.
  assert (Hki : feqb (ki (self w)) f0 = false) by (vm_compute; reflexivity).
  destruct (generate gantry_q (np_zeros 6) gantry_target None "EE" None w)
    as [[e | v] w'] eqn:E.
  - exfalso. apply (f_equal fst) in E. vm_compute in E. discriminate E.
  - destruct (generate_accumulates_position_error
                gantry_q (np_zeros 6) gantry_target None "EE" None w Hki E)
      as [d [Hd He]].
    exists v, w', d. split; [reflexivity | split; [exact Hd | exact He]].
Defined.

Lemma generate_training_signal_witness :
  let w := {| self := gravity_compensated; calls := [] |} in
  exists v w' ts,
    generate gantry_q (np_zeros 6) gantry_target None "EE" None w = (inr v, w') /\
    training_signal (self w') = Some ts /\
    np_iop fsub ts (robot_g gantry gantry_q) = inr v.
Proof.
  intros w.
  destruct (generate gantry_q (np_zeros 6) gantry_target None "EE" None w)
    as [[e | v] w'] eqn:E.
  - exfalso. apply (f_equal fst) in E. vm_compute in E. discriminate E.
  - destruct (generate_training_signal
                gantry_q (np_zeros 6) gantry_target None "EE" None w E)
      as [ts [u [Hts [Hg Hn]]]].
    exists v, w', ts. split; [reflexivity | split; [exact Hts |]].
    rewrite (Hn eq_refl). exact Hg.
Defined.

Lemma generate_torque_length_witness :
  let w := {| self := position_only; calls := [] |} in
  exists v w',
    generate gantry_q (np_zeros 6) gantry_target None "EE" None w = (inr v, w') /\
    length v = 6.
Proof.
  intros w.
  destruct (generate gantry_q (np_zeros 6) gantry_target None "EE" None w)
    as [[e | v] w'] eqn:E.
  - exfalso. apply (f_equal fst) in E. vm_compute in E. discriminate E.
  - exists v, w'. split; [reflexivity |].
    exact (generate_torque_length
             gantry_q (np_zeros 6) gantry_target None "EE" None w eq_refl E).
Defined.

Lemma velocity_scale_in_range_witness :
  let w := {| self := position_only; calls := [] |} in
  let vm := Q2Qc (1 # 2) in
  exists s out xyz u_task w',
    __init__ gantry 1%Qc None (Some (Q2Qc 2)) 0%Qc (Some vm) None None false false
    = inr (s, out) /\
    task_error s "EE" gantry_q (np_zeros 3) gantry_target w
    = (inr (xyz, u_task), w') /\
    length u_task = n_ctrlr_dof s /\
    exists scale,
      velocity_scale s vm (saturation vm (lamb s) u_task) u_task = inr scale /\
      length scale = length u_task.
Proof.
  intros w vm.
  destruct (__init__ gantry 1%Qc None (Some (Q2Qc 2)) 0%Qc (Some vm)
              None None false false) as [e | [s out]] eqn:Ei.
  - exfalso. vm_compute in Ei. discriminate Ei.
  - pose proof Ei as Es. vm_compute in Es.
    injection Es as Hs Ho. subst s out.
    match type of Ei with
    | _ = inr (?S, _) => set (s := S) in *
    end.
    destruct (task_error s "EE" gantry_q (np_zeros 3) gantry_target w)
      as [[e | [xyz u_task]] w'] eqn:Et.
    + exfalso. apply (f_equal fst) in Et. vm_compute in Et. discriminate Et.
    + do 5 eexists. split; [reflexivity | split; [exact Et |]].
      eapply velocity_scale_in_range; [exact Ei | exact Et].
Defined.

Lemma generate_mask_length_witness :
  let w := {| self := gantry_controller [true] 0%Qc; calls := [] |} in
  generate gantry_q (np_zeros 6) gantry_target None "EE" None w
  = (inl IndexError,
     {| self := self w;
        calls := [Call_J "EE" gantry_q (np_zeros 3)] |}).
Proof.
  intros w.
  apply (generate_mask_length gantry_q (np_zeros 6) gantry_target "EE" None w).
  - reflexivity.
  - vm_compute. discriminate.
Defined.

Lemma generate_zero_kp_orientation_witness :
  let w := {| self := zero_kp; calls := [] |} in
  orientation zero_kp gantry_q gantry_target (np_zeros 6) w
  = (inl ZeroDivisionError,
     {| self := zero_kp; calls := [Call_R "EE" gantry_q] |}) /\
  forall v w',
    generate gantry_q (np_zeros 6) gantry_target None "EE" None w <> (inr v, w').
Proof.
  intros w.
  assert (Hkp : feqb (kp (self w)) f0 = true) by (vm_compute; reflexivity).
  assert (Hm : Nat.ltb 0 (count_true (skipn 3 (ctrlr_dof (self w)))) = true)
    by reflexivity.
  destruct (generate_zero_kp_orientation
              gantry_q (np_zeros 6) gantry_target None "EE" None w Hkp Hm)
    as [Ho Hg].
  split; [exact (Ho (np_zeros 6) w) | exact Hg].
Defined.

Lemma null_loop_permutation_witness :
  let a := constant_controller [1; 0; 0; 0; 0; 0]%Qc in
  let b := constant_controller [0; 1; 0; 0; 0; 0]%Qc in
  null_loop position_only gantry_q (np_zeros 6)
    gantry_position_J (np_eye 6) (np_eye 3) (np_zeros 6) [a; b]
  = null_loop position_only gantry_q (np_zeros 6)
      gantry_position_J (np_eye 6) (np_eye 3) (np_zeros 6) [b; a].
Proof.
  intros a b.
  apply null_loop_permutation. apply perm_swap.
Defined.

Lemma generate_at_target_witness :
  let w := {| self := gravity_compensated; calls := [] |} in
  let target := robot_Tx gantry "EE" gantry_q (np_zeros 3) ++ [0; 0; 0]%Qc in
  exists v w',
    generate gantry_q (np_zeros 6) target None "EE" None w = (inr v, w') /\
    v = map fopp (robot_g gantry gantry_q).
Proof.
  intros w target.
  destruct (generate gantry_q (np_zeros 6) target None "EE" None w)
    as [[e | v] w'] eqn:E.
  - exfalso. apply (f_equal fst) in E. vm_compute in E. discriminate E.
  - exists v, w'. split; [reflexivity |].
    assert (Hz6 : is_zero_vec (np_zeros (F := Qc) 6)) by (repeat constructor).
    assert (Hki : feqb (ki (self w)) f0 = true) by (vm_compute; reflexivity).
    assert (Hl : length (robot_g gantry gantry_q) = length v).
    { pose proof E as E'. apply (f_equal fst) in E'. vm_compute in E'.
      injection E' as <-. reflexivity. }
    exact (proj2 (generate_at_target gantry_q target "EE" None w
                    eq_refl Hki eq_refl eq_refl Hz6 Hz6 eq_refl E)
             eq_refl Hl).
Defined.

(** ** The queries of a call *)

Section Queries.

Context {F : Type} `{Scalar F} `{Linalg F} `{Transformations F}.

Lemma task_force_of_expected (s s' : OSC F) (q dq target : vec F)
    (target_vel : option (vec F)) (ref_frame : string)
    (xyz_offset : option (vec F)) :
  logs (call_expected s' q dq)
       (task_force_of s q dq target target_vel ref_frame xyz_offset).
Proof.
  unfold task_force_of.
  apply logs_bind; [effects |]. intros _.
  apply logs_bind; [effects |]. intros tv.
  apply logs_bind; [unfold jacobian; effects |]. intros J.
  apply logs_bind; [apply inertia_logs; reflexivity |]. intros [[M M_inv] Mx].
  apply logs_bind.
  - unfold task_error, position_error, orientation.
    apply logs_bind; [effects |]. intros [xyz u]. effects.
  - intros [xyz u]. effects.
Qed.

Lemma joint_torque_expected (s : OSC F) (q dq : vec F) (J Mx : matrix F)
    (u : pyval F) (u_task : vec F) :
  logs (call_expected s q dq) (joint_torque s q dq J Mx u u_task).
Proof.
  unfold joint_torque.
  apply logs_bind; [effects |]. intros u1.
  apply logs_bind.
  - destruct (use_C s) eqn:EC; [| effects].
    apply logs_bind; [| intros; effects].
    apply query_logs. simpl. auto.
  - intros u2. apply logs_bind; [effects |]. intros _.
    destruct (use_g s) eqn:EG; [| effects].
    apply logs_bind; [| intros; effects].
    apply query_logs. simpl. auto.
Qed.

Lemma call_expected_ext (s s' : OSC F) (q dq : vec F) (l : list (call F)) :
  use_C s = use_C s' -> use_g s = use_g s' ->
  Forall (call_expected s q dq) l -> Forall (call_expected s' q dq) l.
Proof.
  intros HC HG. apply Forall_impl. intros [] Hc; simpl in *;
    try rewrite <- HC; try rewrite <- HG; exact Hc.
Qed.

(** X11.  Whatever its outcome, a call of generate() only appends queries
    to the log of the robot model, all of them at the joint state [q] of
    the call; it asks for the Coriolis matrix only when [use_C] is set, at
    [q] and [dq], and for gravity only when [use_g] is set. *)
Theorem generate_queries
    (q dq target : vec F) (target_vel : option (vec F))
    (ref_frame : string) (xyz_offset : option (vec F))
    (w w' : world F) (r : result (vec F)) :
  generate q dq target target_vel ref_frame xyz_offset w = (r, w') ->
  exists l,
    calls w' = calls w ++ l /\ Forall (call_expected (self w) q dq) l.
Proof.
  intros E. unfold generate in E. unfold bind at 1 in E.
  destruct (task_force q dq target target_vel ref_frame xyz_offset w)
    as [[e | [[[[[J M_inv] Mx] xyz] u_task] u]] w1] eqn:Etf.
  - injection E as _ <-. revert Etf. unfold task_force.
    unfold bind at 1, get. apply task_force_of_expected.
  - pose proof (task_force_keeps_self _ _ _ _ _ _ _ Etf) as Hs.
    unfold task_force in Etf. unfold bind at 1, get in Etf.
    apply (task_force_of_expected _ (self w)) in Etf.
    destruct Etf as [l1 [E1 F1]].
    unfold bind at 1 in E.
    destruct (integral_term target xyz u_task w1) as [[e | ut] w2] eqn:Ei.
    + injection E as _ <-.
      assert (Hl : logs (call_expected (self w) q dq)
                     (integral_term target xyz u_task))
        by (unfold integral_term; effects).
      apply Hl in Ei. destruct Ei as [l2 [E2 F2]].
      exists (l1 ++ l2). split.
      * rewrite E2, E1, app_assoc. reflexivity.
      * apply Forall_app; auto.
    + assert (HC : use_C (self w2) = use_C (self w1))
        by exact (integral_term_preserves (fun s => use_C s) target xyz u_task
                    (fun _ _ => eq_refl) w1 Ei).
      assert (HG : use_g (self w2) = use_g (self w1))
        by exact (integral_term_preserves (fun s => use_g s) target xyz u_task
                    (fun _ _ => eq_refl) w1 Ei).
      assert (Hl : logs (call_expected (self w) q dq)
                     (integral_term target xyz u_task))
        by (unfold integral_term; effects).
      apply Hl in Ei. destruct Ei as [l2 [E2 F2]].
      unfold bind at 1, get in E.
      assert (Ht : logs (call_expected (self w2) q dq)
                     (bind (joint_torque (self w2) q dq J Mx u ut)
                        (fun u' => lift (null_space (self w2) q dq J M_inv Mx u')))).
      { apply logs_bind; [apply joint_torque_expected |]. intros. effects. }
      apply Ht in E. destruct E as [l3 [E3 F3]].
      exists (l1 ++ l2 ++ l3). split.
      * rewrite E3, E2, E1, !app_assoc. reflexivity.
      * apply Forall_app. split; [exact F1 |].
        apply Forall_app. split; [exact F2 |].
        revert F3. apply call_expected_ext; congruence.
Qed.

End Queries.

Lemma generate_queries_witness :
  let w := {| self := gravity_compensated; calls := [] |} in
  exists l,
    calls (snd (generate gantry_q (np_zeros 6) gantry_target None "EE" None w))
    = calls w ++ l /\
    Forall (call_expected (self w) gantry_q (np_zeros 6)) l.
Proof.
  intros w.
  eapply (generate_queries gantry_q (np_zeros 6) gantry_target None "EE" None w).
  apply surjective_pairing.
Defined.
